(** * askrene: the layered network view and its query engine

    A shallow embedding of [plugins/askrene/askrene.c].  Amounts are
    64-bit unsigned integers written as [Z] with their range made explicit;
    the graph, layers and reservation table are records and lists. *)

From Stdlib Require Import ZArith Lia Bool List String QArith Qround Permutation.
From stdpp Require Import base list.
Import ListNotations.

Open Scope Z_scope.

(** ** Machine integers and amounts *)

Definition u64_max : Z := 2 ^ 64 - 1.

Definition u64_wrap (x : Z) : Z := x mod 2 ^ 64.

(** [AMOUNT_MSAT(-1ULL)]: the "unbounded" maximum. *)
Definition AMOUNT_MSAT_MAX : Z := u64_max.

(** [amount_msat_sub]: fails (returns [None], leaving the output untouched)
    on underflow. *)
Definition amount_msat_sub (a b : Z) : option Z :=
  if a <? b then None else Some (a - b).


(** [amount_sat_to_msat]: fails when [sat * 1000] overflows a [u64]. *)
Definition amount_sat_to_msat (sat : Z) : option Z :=
  if u64_max <? sat * 1000 then None else Some (sat * 1000).

(** ** fp16: tiny floating point numbers *)

(** Modelled from the spec: [common/fp16.h] ([u64_to_fp16], [fp16_to_u64]) is
    not part of the sources.  The spec describes a "16-bit compressed float",
    lossy but monotonic, with 0 for 0.  We take the layout of a 5-bit exponent
    over an 11-bit mantissa with an implicit leading bit; values below 2^11
    are stored as they are, and values beyond the largest exponent saturate
    to the largest code. *)
Definition FP16_MANTISSA_BITS : Z := 11.
Definition FP16_EXPONENT_BITS : Z := 5.

Definition fp16_to_u64 (v : Z) : Z :=
  let mantissa_bits := Z.land v (Z.ones FP16_MANTISSA_BITS) in
  let exponent := Z.shiftr v FP16_MANTISSA_BITS in
  if exponent =? 0 then mantissa_bits
  else Z.shiftl (Z.lor (Z.shiftl 1 FP16_MANTISSA_BITS) mantissa_bits)
                (exponent - 1).

(** Modelled from the spec: see [fp16_to_u64]. *)
Definition u64_to_fp16 (val : Z) (round_up : bool) : Z :=
  if val <? Z.shiftl 1 FP16_MANTISSA_BITS then val
  else
    let shift := Z.log2 val - FP16_MANTISSA_BITS in
    let mant := Z.shiftr val shift in
    let lost := negb (Z.land val (Z.ones shift) =? 0) in
    let mant := if round_up && lost then mant + 1 else mant in
    let '(mant, shift) :=
      if mant =? Z.shiftl 1 (FP16_MANTISSA_BITS + 1)
      then (Z.shiftr mant 1, shift + 1) else (mant, shift) in
    let exponent := shift + 1 in
    if Z.shiftl 1 FP16_EXPONENT_BITS <=? exponent then Z.ones 16
    else Z.lor (Z.shiftl exponent FP16_MANTISSA_BITS)
               (mant - Z.shiftl 1 FP16_MANTISSA_BITS).

(** ** Identifiers *)

(** A node id: the 33-byte compressed public key read as a big-endian
    number. *)
Definition node_id := Z.

(** [struct short_channel_id] is a [u64]. *)
Definition short_channel_id := Z.

Record short_channel_id_dir := mk_scidd {
  scidd_scid : short_channel_id;
  scidd_dir : Z
}.

Definition scidd_eqb (a b : short_channel_id_dir) : bool :=
  (scidd_scid a =? scidd_scid b) && (scidd_dir a =? scidd_dir b).

(** ** The gossip map *)

Record gossmap_chan := mk_chan {
  gc_idx : nat;                    (* gossmap_chan_idx *)
  gc_scid : short_channel_id;      (* gossmap_chan_scid *)
  gc_node1 : node_id;
  gc_node2 : node_id;
  gc_capacity : option Z;          (* gossmap_chan_get_capacity, in sat *)
  gc_enabled : bool * bool         (* per-direction enabled flag *)
}.

Record gossmap := mk_gossmap {
  gm_chans : list gossmap_chan;
  gm_max_chan_idx : nat;           (* gossmap_max_chan_idx *)
  gm_version : nat;                (* the gossip store offset loaded so far *)
  gm_saved : option (list gossmap_chan * nat)
}.

Definition gossmap_chan_idx (g : gossmap) (c : gossmap_chan) : nat := gc_idx c.
Definition gossmap_chan_scid (g : gossmap) (c : gossmap_chan) : short_channel_id :=
  gc_scid c.
Definition gossmap_chan_get_capacity (g : gossmap) (c : gossmap_chan) : option Z :=
  gc_capacity c.
Definition gossmap_max_chan_idx (g : gossmap) : nat := gm_max_chan_idx g.

(** ** Layers *)

Inductive constraint_type := CONSTRAINT_MIN | CONSTRAINT_MAX.

Definition constraint_type_eqb (a b : constraint_type) : bool :=
  match a, b with
  | CONSTRAINT_MIN, CONSTRAINT_MIN | CONSTRAINT_MAX, CONSTRAINT_MAX => true
  | _, _ => false
  end.

Record constraint := mk_constraint {
  c_scidd : short_channel_id_dir;
  c_type : constraint_type;
  c_timestamp : Z;
  c_limit : Z
}.

Record local_channel := mk_local_channel {
  lc_scid : short_channel_id;
  lc_n1 : node_id;
  lc_n2 : node_id;
  lc_capacity : Z;
  lc_base_fee : Z;
  lc_proportional_fee : Z;
  lc_delay : Z;
  lc_htlc_min : Z;
  lc_htlc_max : Z
}.

Record layer := mk_layer {
  layer_name : string;
  layer_local_channels : list local_channel;
  layer_constraints : list constraint;
  layer_disabled_nodes : list node_id
}.

(** Modelled from the spec: [layer_find_constraint] of [layer.c] (not part of
    the sources), the [kind] constraint recorded for [scidd], if any. *)
Definition layer_find_constraint (l : layer) (scidd : short_channel_id_dir)
    (kind : constraint_type) : option constraint :=
  List.find (fun c => scidd_eqb (c_scidd c) scidd && constraint_type_eqb (c_type c) kind)
            (layer_constraints l).

(** ** The reservation table *)

Record reserve := mk_reserve {
  r_scidd : short_channel_id_dir;
  r_amount : Z;
  r_num_htlcs : Z
}.

Definition reserve_hash := list reserve.

(** Modelled from the spec: [find_reserve] of [reserve.c] (not part of the
    sources). *)
Definition find_reserve (reserved : reserve_hash) (scidd : short_channel_id_dir)
    : option reserve :=
  List.find (fun r => scidd_eqb (r_scidd r) scidd) reserved.

(** ** The route query context *)

Record route_query := mk_route_query {
  rq_gossmap : gossmap;
  rq_reserved : reserve_hash;
  rq_layers : list layer;
  rq_capacities : list Z           (* fp16_t array *)
}.

(** ** [get_constraints] *)

(** One iteration of the loop "Look through layers for any constraints". *)
Definition constraint_step (scidd : short_channel_id_dir) (minmax : Z * Z) (l : layer)
    : Z * Z :=
  let '(min, max) := minmax in
  let min := match layer_find_constraint l scidd CONSTRAINT_MIN with
             | Some cmin => if c_limit cmin >? min then c_limit cmin else min
             | None => min
             end in
  let max := match layer_find_constraint l scidd CONSTRAINT_MAX with
             | Some cmax => if c_limit cmax <? max then c_limit cmax else max
             | None => max
             end in
  (min, max).

Definition constraints_fold (layers : list layer) (scidd : short_channel_id_dir)
    (minmax : Z * Z) : Z * Z :=
  fold_left (constraint_step scidd) layers minmax.

(** "Might be here because it's reserved, but capacity is normal." *)
Definition capacity_fallback (g : gossmap) (chan : gossmap_chan) (max : Z) : Z :=
  if max =? AMOUNT_MSAT_MAX then
    match gossmap_chan_get_capacity g chan with
    | Some cap =>
        match amount_sat_to_msat cap with
        | Some m => m
        | None => max      (* logged: "Local channel ... with capacity" *)
        end
    | None => max          (* logged: "Channel ... without capacity?" *)
    end
  else max.

(** "Finally, if any is in use, subtract that!" *)
Definition reserve_subtract (reserved : reserve_hash) (scidd : short_channel_id_dir)
    (minmax : Z * Z) : Z * Z :=
  let '(min, max) := minmax in
  match find_reserve reserved scidd with
  | Some reserve =>
      let min := match amount_msat_sub min (r_amount reserve) with
                 | Some v => v | None => 0 end in
      let max := match amount_msat_sub max (r_amount reserve) with
                 | Some v => v | None => 0 end in
      (min, max)
  | None => (min, max)
  end.

(** The condition of the fast path: [idx < tal_count(rq->capacities) &&
    rq->capacities[idx] != 0]. *)
Definition fast_path (rq : route_query) (idx : nat) : bool :=
  match rq_capacities rq !! idx with
  | Some cap16 => negb (cap16 =? 0)
  | None => false
  end.

Definition get_constraints (rq : route_query) (chan : gossmap_chan) (dir : Z)
    : Z * Z :=
  let idx := gossmap_chan_idx (rq_gossmap rq) chan in
  let min := 0 in
  if fast_path rq idx then
    (* "Fast path: no information known, no reserve." *)
    (min, u64_wrap (fp16_to_u64 (nth idx (rq_capacities rq) 0) * 1000))
  else
    let scidd := mk_scidd (gossmap_chan_scid (rq_gossmap rq) chan) dir in
    let max := AMOUNT_MSAT_MAX in
    let '(min, max) := constraints_fold (rq_layers rq) scidd (min, max) in
    let max := capacity_fallback (rq_gossmap rq) chan max in
    reserve_subtract (rq_reserved rq) scidd (min, max).

(** ** Layer operations (spec-modelled) *)

(** Modelled from the spec: [layer_update_constraint] of [layer.c] (not part
    of the sources): insert or replace the [kind] entry for [scidd], with the
    new timestamp and limit; returns the layer and the stored constraint. *)
Definition layer_update_constraint (l : layer) (scidd : short_channel_id_dir)
    (kind : constraint_type) (timestamp limit : Z) : layer * constraint :=
  let c := mk_constraint scidd kind timestamp limit in
  let matches c' := scidd_eqb (c_scidd c') scidd && constraint_type_eqb (c_type c') kind in
  let cs := layer_constraints l in
  let cs := if existsb matches cs
            then map (fun c' => if matches c' then c else c') cs
            else cs ++ [c] in
  (mk_layer (layer_name l) (layer_local_channels l) cs (layer_disabled_nodes l), c).

(** Modelled from the spec: [layer_find_local_channel] of [layer.c]. *)
Definition layer_find_local_channel (l : layer) (scid : short_channel_id)
    : option local_channel :=
  List.find (fun lc => lc_scid lc =? scid) (layer_local_channels l).

(** Modelled from the spec: [layer_check_local_channel] of [layer.c],
    structural equality on endpoints and capacity. *)
Definition layer_check_local_channel (lc : local_channel) (src dst : node_id)
    (capacity : Z) : bool :=
  (lc_n1 lc =? src) && (lc_n2 lc =? dst) && (lc_capacity lc =? capacity).

(** Modelled from the spec: [layer_update_local_channel] of [layer.c],
    insert or replace the local channel [scid]. *)
Definition layer_update_local_channel (l : layer) (src dst : node_id)
    (scid : short_channel_id) (capacity base_fee proportional_fee delay
    htlc_min htlc_max : Z) : layer :=
  let lc := mk_local_channel scid src dst capacity base_fee proportional_fee
                             delay htlc_min htlc_max in
  let lcs := layer_local_channels l in
  let lcs := if existsb (fun lc' => lc_scid lc' =? scid) lcs
             then map (fun lc' => if lc_scid lc' =? scid then lc else lc') lcs
             else lcs ++ [lc] in
  mk_layer (layer_name l) lcs (layer_constraints l) (layer_disabled_nodes l).

(** ** Reservation operations (spec-modelled) *)




(** ** Graph refresh and overlays (spec-modelled) *)

(** Modelled from the spec: [gossmap_refresh] reloads the map when the gossip
    store has advanced, and says whether it did. *)
Definition gossmap_refresh (g store : gossmap) : bool * gossmap :=
  if (gm_version g <? gm_version store)%nat
  then (true, mk_gossmap (gm_chans store) (gm_max_chan_idx store)
                         (gm_version store) (gm_saved g))
  else (false, g).

Record gossmap_localmods := mk_localmods {
  lm_channels : list local_channel;
  lm_disabled : list node_id
}.

Definition gossmap_localmods_new : gossmap_localmods := mk_localmods [] [].

(** Modelled from the spec: [layer_add_localmods] registers every local
    channel and every disabled node of the layer into the patch. *)
Definition layer_add_localmods (l : layer) (g : gossmap) (mods : gossmap_localmods)
    : gossmap_localmods :=
  mk_localmods (lm_channels mods ++ layer_local_channels l)
               (lm_disabled mods ++ layer_disabled_nodes l).

Definition node_in (n : node_id) (ns : list node_id) : bool :=
  existsb (fun m => m =? n) ns.

(** Modelled from the spec: [gossmap_apply_localmods] adds the local channels
    (at fresh indices, with no on-chain capacity) and disables every channel
    adjacent to a disabled node; the map remembers what it was. *)
Definition gossmap_apply_localmods (g : gossmap) (mods : gossmap_localmods) : gossmap :=
  let added := imap (fun k lc => mk_chan (gm_max_chan_idx g + k)%nat (lc_scid lc)
                                         (lc_n1 lc) (lc_n2 lc) None (true, true))
                    (lm_channels mods) in
  let disable c := if node_in (gc_node1 c) (lm_disabled mods)
                      || node_in (gc_node2 c) (lm_disabled mods)
                   then mk_chan (gc_idx c) (gc_scid c) (gc_node1 c) (gc_node2 c)
                                (gc_capacity c) (false, false)
                   else c in
  mk_gossmap (map disable (gm_chans g ++ added))
             (gm_max_chan_idx g + length added)%nat (gm_version g)
             (Some (gm_chans g, gm_max_chan_idx g)).

(** Modelled from the spec: [gossmap_remove_localmods] restores the prior
    view exactly. *)
Definition gossmap_remove_localmods (g : gossmap) (mods : gossmap_localmods) : gossmap :=
  match gm_saved g with
  | Some (chans, max_idx) => mk_gossmap chans max_idx (gm_version g) None
  | None => g
  end.

Definition gossmap_find_chan (g : gossmap) (scid : short_channel_id)
    : option gossmap_chan :=
  List.find (fun c => gc_scid c =? scid) (gm_chans g).

(** Zero the capacity entry of the channel [scid], if the map has it. *)
Definition clear_capacity (g : gossmap) (scid : short_channel_id) (caps : list Z)
    : list Z :=
  match gossmap_find_chan g scid with
  | Some c => <[gossmap_chan_idx g c := 0]> caps
  | None => caps
  end.

(** Modelled from the spec: [layer_clear_overridden_capacities] zeroes the
    cache entry of every channel the layer has a constraint or a local
    channel for. *)
Definition layer_clear_overridden_capacities (l : layer) (g : gossmap) (caps : list Z)
    : list Z :=
  let caps := fold_left (fun caps c => clear_capacity g (scidd_scid (c_scidd c)) caps)
                        (layer_constraints l) caps in
  fold_left (fun caps lc => clear_capacity g (lc_scid lc) caps)
            (layer_local_channels l) caps.

(** Modelled from the spec: [reserves_clear_capacities] zeroes the cache entry
    of every reserved channel present in the map. *)
Definition reserves_clear_capacities (reserved : reserve_hash) (g : gossmap)
    (caps : list Z) : list Z :=
  fold_left (fun caps r => clear_capacity g (scidd_scid (r_scidd r)) caps)
            reserved caps.

(** ** [get_capacities] *)

Definition get_capacities (g : gossmap) : list Z :=
  fold_left (fun caps c =>
      let cap := match gossmap_chan_get_capacity g c with
                 | Some cap => cap
                 | None => 0        (* logged: "get_capacity failed for channel?" *)
                 end in
      <[gossmap_chan_idx g c := u64_to_fp16 cap true]> caps)
    (gm_chans g) (replicate (gossmap_max_chan_idx g) 0).

(** ** Plugin state and the layer store *)

Record askrene := mk_askrene {
  ask_gossmap : gossmap;
  ask_store : gossmap;             (* what the gossip store file holds now *)
  ask_capacities : list Z;
  ask_reserved : reserve_hash;
  ask_layers : list layer
}.

Definition set_gossmap (a : askrene) (g : gossmap) : askrene :=
  mk_askrene g (ask_store a) (ask_capacities a) (ask_reserved a) (ask_layers a).
Definition set_capacities (a : askrene) (caps : list Z) : askrene :=
  mk_askrene (ask_gossmap a) (ask_store a) caps (ask_reserved a) (ask_layers a).
Definition set_layers (a : askrene) (ls : list layer) : askrene :=
  mk_askrene (ask_gossmap a) (ask_store a) (ask_capacities a) (ask_reserved a) ls.

(** Modelled from the spec: [find_layer] of [layer.c], lookup by name. *)
Definition find_layer (a : askrene) (name : string) : option layer :=
  List.find (fun l => String.eqb (layer_name l) name) (ask_layers a).

(** Modelled from the spec: [new_layer] of [layer.c], an empty layer added
    to the store. *)
Definition new_layer (a : askrene) (name : string) : askrene * layer :=
  let l := mk_layer name [] [] [] in
  (set_layers a (ask_layers a ++ [l]), l).

(** Layers are mutated in place in the C code: write back the layer of the
    same name. *)
Definition layer_store_update (a : askrene) (l : layer) : askrene :=
  set_layers a (map (fun l' => if String.eqb (layer_name l') (layer_name l) then l else l')
                    (ask_layers a)).

(** ** Command results *)

Definition JSONRPC2_INVALID_PARAMS : Z := -32602.
Definition PAY_ROUTE_NOT_FOUND : Z := 205.

Record route_hop := mk_hop {
  hop_scid : short_channel_id;
  hop_direction : Z;
  hop_node_id : node_id;
  hop_amount : Z;
  hop_delay : Z
}.

Record route := mk_route {
  success_prob : Q;
  route_hops : list route_hop
}.

(** An element of a [tal_arr(.., struct route *, ..)]: the allocation leaves
    it indeterminate. *)
Inductive route_ptr := RouteUninit | RoutePtr (r : route).

(** A write through a [struct route *]: undefined ([None]) through an
    indeterminate pointer. *)
Definition route_write (p : route_ptr) (f : route -> route) : option route_ptr :=
  match p with
  | RouteUninit => None
  | RoutePtr r => Some (RoutePtr (f r))
  end.

Record route_json := mk_route_json {
  probability_ppm : Z;
  path_json : list route_hop
}.

Inductive json_result :=
  | JEmpty
  | JRoutes (routes : list route_json)
  | JConstraint (c : constraint).

Inductive fail_msg :=
  | MsgRouteNotFound (err : string)
  | MsgOverflowReserving (num : nat) (scidd : short_channel_id_dir) (amount : Z)
                         (already : option Z)
  | MsgChannelExists
  | MsgExactlyOne.

Inductive command_result :=
  | CmdSuccess (j : json_result)
  | CmdFail (code : Z) (msg : fail_msg)
  | CmdCheckDone
  | CmdUB.

(** ** [get_routes] and [getroutes] *)

Inductive get_routes_outcome :=
  | GR_Ok (err : option string) (routes : list route_ptr) (st : askrene)
  | GR_UB (st : askrene).

(** The layer loop of [get_routes]: "Layers don't have to exist: they might
    be empty!" *)
Definition add_query_layers (st : askrene) (layers : list string)
    (rq : route_query) (localmods : gossmap_localmods)
    : route_query * gossmap_localmods :=
  fold_left (fun '(rq, localmods) name =>
      match find_layer st name with
      | None => (rq, localmods)
      | Some l =>
          let rq := mk_route_query (rq_gossmap rq) (rq_reserved rq)
                                   (rq_layers rq ++ [l]) (rq_capacities rq) in
          let localmods := layer_add_localmods l (rq_gossmap rq) localmods in
          let rq := mk_route_query (rq_gossmap rq) (rq_reserved rq) (rq_layers rq)
                      (layer_clear_overridden_capacities l (ask_gossmap st)
                                                         (rq_capacities rq)) in
          (rq, localmods)
      end)
    layers (rq, localmods).

(** [get_routes] up to the application of the overlay: refresh the map,
    clone the capacity cache into the query, add the layers and clear the
    entries of reserved channels. *)
Definition get_routes_prepare (st : askrene) (layers : list string)
    : askrene * route_query * gossmap_localmods :=
  let '(advanced, g) := gossmap_refresh (ask_gossmap st) (ask_store st) in
  let st := set_gossmap st g in
  let st := if advanced then set_capacities st (get_capacities (ask_gossmap st)) else st in
  let rq := mk_route_query (ask_gossmap st) (ask_reserved st) [] (ask_capacities st) in
  let localmods := gossmap_localmods_new in
  let '(rq, localmods) := add_query_layers st layers rq localmods in
  let rq := mk_route_query (rq_gossmap rq) (rq_reserved rq) (rq_layers rq)
              (reserves_clear_capacities (ask_reserved st) (ask_gossmap st)
                                         (rq_capacities rq)) in
  (st, rq, localmods).

Definition get_routes (st : askrene) (source dest : node_id) (amount : Z)
    (layers : list string) : get_routes_outcome :=
  let '(st, rq, localmods) := get_routes_prepare st layers in
  let st := set_gossmap st (gossmap_apply_localmods (ask_gossmap st) localmods) in
  (* FIXME: Do route here!  This is a dummy, single "direct" route. *)
  let routes := replicate 1 RouteUninit in
  match route_write (nth 0 routes RouteUninit)
                    (fun r => mk_route 1 (route_hops r)) with
  | None => GR_UB st
  | Some r0 =>
      match route_write r0 (fun r =>
              mk_route (success_prob r)
                       [mk_hop 0x0000010000020003 0 dest amount 6]) with
      | None => GR_UB st
      | Some r0 =>
          let routes := <[0%nat := r0]> routes in
          let st := set_gossmap st (gossmap_remove_localmods (ask_gossmap st) localmods) in
          GR_Ok None routes st
      end
  end.

(** [(u64)(routes[i]->success_prob * 1000000)] truncates toward zero. *)
Definition route_to_json (p : route_ptr) : option route_json :=
  match p with
  | RouteUninit => None
  | RoutePtr r =>
      Some (mk_route_json (Qfloor (success_prob r * inject_Z 1000000))
                          (route_hops r))
  end.

Definition json_getroutes (st : askrene) (source dest : node_id) (amount : Z)
    (layers : list string) : command_result * askrene :=
  match get_routes st source dest amount layers with
  | GR_UB st => (CmdUB, st)
  | GR_Ok (Some err) _ st => (CmdFail PAY_ROUTE_NOT_FOUND (MsgRouteNotFound err), st)
  | GR_Ok None routes st =>
      match mapM route_to_json routes with
      | Some js => (CmdSuccess (JRoutes js), st)
      | None => (CmdUB, st)
      end
  end.

(** ** The mutating commands *)


Definition json_askrene_create_channel (check_only : bool) (st : askrene)
    (layername : string) (src dst : node_id) (scid : short_channel_id)
    (capacity htlc_min htlc_max base_fee proportional_fee delay : Z)
    : command_result * askrene :=
  (* If it exists, it must match *)
  let bad := match find_layer st layername with
             | Some layer =>
                 match layer_find_local_channel layer scid with
                 | Some lc => negb (layer_check_local_channel lc src dst capacity)
                 | None => false
                 end
             | None => false
             end in
  if bad then (CmdFail JSONRPC2_INVALID_PARAMS MsgChannelExists, st)
  else if check_only then (CmdCheckDone, st)
  else
    let '(st, layer) := match find_layer st layername with
                        | Some layer => (st, layer)
                        | None => new_layer st layername
                        end in
    let layer := layer_update_local_channel layer src dst scid capacity
                   base_fee proportional_fee delay htlc_min htlc_max in
    (CmdSuccess JEmpty, layer_store_update st layer).

(** A [p_opt] parameter pointer tested for non-NULL. *)
Definition supplied (p : option Z) : bool :=
  match p with Some _ => true | None => false end.

Definition json_askrene_inform_channel (check_only : bool) (now : Z) (st : askrene)
    (layername : string) (scid : short_channel_id) (direction : Z)
    (min max : option Z) : command_result * askrene :=
  if (negb (supplied min) && negb (supplied max)) || (supplied min && supplied max)
  then (CmdFail JSONRPC2_INVALID_PARAMS MsgExactlyOne, st)
  else if check_only then (CmdCheckDone, st)
  else
    let '(st, layer) := match find_layer st layername with
                        | Some layer => (st, layer)
                        | None => new_layer st layername
                        end in
    let scidd := mk_scidd scid direction in
    let updated := match min, max with
                   | Some m, _ => Some (layer_update_constraint layer scidd CONSTRAINT_MIN now m)
                   | None, Some m => Some (layer_update_constraint layer scidd CONSTRAINT_MAX now m)
                   | None, None => None          (* *max through NULL *)
                   end in
    match updated with
    | Some (layer, c) => (CmdSuccess (JConstraint c), layer_store_update st layer)
    | None => (CmdUB, st)
    end.

(** ** The other commands *)




(** Modelled from the spec: [layer_add_disabled_node] of [layer.c]. *)
Definition layer_add_disabled_node (l : layer) (node : node_id) : layer :=
  mk_layer (layer_name l) (layer_local_channels l) (layer_constraints l)
           (layer_disabled_nodes l ++ [node]).

(** Modelled from the spec: [layer_trim_constraints] of [layer.c] drops every
    constraint with [timestamp < cutoff] and returns how many it dropped. *)
Definition layer_trim_constraints (l : layer) (cutoff : Z) : layer * nat :=
  let cs := layer_constraints l in
  let removed := List.filter (fun c => c_timestamp c <? cutoff) cs in
  let kept := List.filter (fun c => negb (c_timestamp c <? cutoff)) cs in
  (mk_layer (layer_name l) (layer_local_channels l) kept (layer_disabled_nodes l),
   length removed).

(** [init]: load the gossip map ([plugin_err] when that fails), start with no
    layers and an empty reservation table, and build the capacity cache. *)
Definition init (loaded : option gossmap) : option askrene :=
  match loaded with
  | None => None              (* "Could not load gossmap %s: %s" *)
  | Some gossmap => Some (mk_askrene gossmap gossmap (get_capacities gossmap) [] [])
  end.

(** Replies of [askrene-unreserve], [askrene-disable-node] and [askrene-age]. *)
Inductive reply_json :=
  | RJEmpty
  | RJAge (layer : string) (num_removed : nat).

Inductive reply_msg :=
  | MsgUnderflowUnreserving (num : nat) (scidd : short_channel_id_dir) (amount : Z)
                            (num_htlcs : Z) (already : option Z)
  | MsgBadParam (name : string) (why : string).

Inductive reply :=
  | ReplySuccess (j : reply_json)
  | ReplyFail (code : Z) (msg : reply_msg)
  | ReplyUB.


Definition json_askrene_disable_node (st : askrene) (layername : string) (node : node_id)
    : reply * askrene :=
  let '(st, layer) := match find_layer st layername with
                      | Some layer => (st, layer)
                      | None => new_layer st layername
                      end in
  let layer := layer_add_disabled_node layer node in
  (ReplySuccess RJEmpty, layer_store_update st layer).

(** [param_known_layer]: [command_fail_badparam] on a name no layer has. *)
Definition param_known_layer (st : askrene) (name layername : string) : reply + layer :=
  match find_layer st layername with
  | Some layer => inr layer
  | None => inl (ReplyFail JSONRPC2_INVALID_PARAMS (MsgBadParam name "Unknown layer"))
  end.

Definition json_askrene_age (st : askrene) (layername : string) (cutoff : Z)
    : reply * askrene :=
  match param_known_layer st "layer" layername with
  | inl err => (err, st)
  | inr layer =>
      let '(layer, num_removed) := layer_trim_constraints layer cutoff in
      (ReplySuccess (RJAge (layer_name layer) num_removed), layer_store_update st layer)
  end.

(** ** Concrete inputs *)

(** Spec scenario 1: one public channel 0x01 between A and B, of
    1,000,000 sat. *)
Definition node_A : node_id := 1.
Definition node_B : node_id := 2.

Definition chan_01 : gossmap_chan := mk_chan 0 0x01 node_A node_B (Some 1000000) (true, true).

Definition graph_01 : gossmap := mk_gossmap [chan_01] 1 1 None.

Definition scidd_01_0 : short_channel_id_dir := mk_scidd 0x01 0.

Definition reserved_01 : reserve_hash := [mk_reserve scidd_01_0 400000000 1].

(** A layer asserting MIN 700,000,000 and MAX 2^64-1 msat on (0x01, 0). *)
Definition layer_L : layer :=
  mk_layer "L" [] [mk_constraint scidd_01_0 CONSTRAINT_MIN 1000 700000000;
                   mk_constraint scidd_01_0 CONSTRAINT_MAX 1000 u64_max] [].

(** A layer declaring a local channel 0x02 from B to a third node. *)
Definition layer_local : layer :=
  mk_layer "local" [mk_local_channel 0x02 node_B 3 5000000 0 0 6 0 5000000] [] [].

Definition askrene_01 : askrene :=
  mk_askrene graph_01 graph_01 (get_capacities graph_01) [] [layer_local].

Definition askrene_L : askrene :=
  mk_askrene graph_01 graph_01 (get_capacities graph_01) [] [layer_L].

(** A layer whose MIN (700,000,000) exceeds its MAX (500,000,000) on (0x01, 0). *)
Definition layer_conflict : layer :=
  mk_layer "C" [] [mk_constraint scidd_01_0 CONSTRAINT_MIN 1000 700000000;
                   mk_constraint scidd_01_0 CONSTRAINT_MAX 1000 500000000] [].


(** A map of three channels: 0x01 of 1,000,000 sat, 0x02 whose capacity is
    unknown, and 0x03 of 0 sat. *)
Definition chan_02_nocap : gossmap_chan := mk_chan 1 0x02 node_B 3 None (true, true).
Definition chan_03_empty : gossmap_chan := mk_chan 2 0x03 node_A 3 (Some 0) (true, true).
Definition graph_three : gossmap :=
  mk_gossmap [chan_01; chan_02_nocap; chan_03_empty] 3 1 None.

(** The gossip store has advanced past the loaded map: channel 0x02 was
    gossiped after [graph_01] was loaded. *)
Definition graph_later : gossmap := mk_gossmap [chan_01; chan_02_nocap] 2 2 None.
Definition askrene_later : askrene :=
  mk_askrene graph_01 graph_later (get_capacities graph_01) [] [].


(** * Theorems *)

(** ** Sanity checks on concrete inputs *)

Example fp16_1m : fp16_to_u64 (u64_to_fp16 1000000 true) = 1000192.
Proof. reflexivity. Qed.

Example get_capacities_01 : get_capacities graph_01 = [u64_to_fp16 1000000 true].
Proof. reflexivity. Qed.

Example get_constraints_slow_01 :
  get_constraints (mk_route_query graph_01 reserved_01 [] [0]) chan_01 0
  = (0, 600000000).
Proof. reflexivity. Qed.

(** ** Zeroed cache entries *)

Definition zero_or_absent (caps : list Z) (i : nat) : Prop :=
  caps !! i = None \/ caps !! i = Some 0.

Lemma clear_capacity_keeps (g : gossmap) (scid : short_channel_id) (caps : list Z) (i : nat) :
  zero_or_absent caps i -> zero_or_absent (clear_capacity g scid caps) i.
Proof.
  unfold clear_capacity, zero_or_absent. destruct (gossmap_find_chan g scid) as [c|]; [|auto].
  destruct (decide (gossmap_chan_idx g c = i)) as [<-|Hne].
  - destruct (decide (gossmap_chan_idx g c < length caps)%nat).
    + rewrite list_lookup_insert_eq by lia. auto.
    + rewrite list_insert_ge by lia. auto.
  - rewrite list_lookup_insert_ne by exact Hne. auto.
Qed.

Lemma clear_capacity_zeroes (g : gossmap) (scid : short_channel_id) (caps : list Z)
    (c : gossmap_chan) :
  gossmap_find_chan g scid = Some c ->
  zero_or_absent (clear_capacity g scid caps) (gc_idx c).
Proof.
  unfold clear_capacity, zero_or_absent. intros ->. unfold gossmap_chan_idx.
  destruct (decide (gc_idx c < length caps)%nat).
  - rewrite list_lookup_insert_eq by lia. auto.
  - rewrite list_insert_ge by lia. left. apply lookup_ge_None_2. lia.
Qed.

Lemma reserves_clear_keeps (reserved : reserve_hash) (g : gossmap) (caps : list Z) (i : nat) :
  zero_or_absent caps i -> zero_or_absent (reserves_clear_capacities reserved g caps) i.
Proof.
  unfold reserves_clear_capacities. revert caps.
  induction reserved as [|r rest IH]; intros caps H; simpl; [exact H|].
  apply IH. apply clear_capacity_keeps. exact H.
Qed.


Lemma fast_path_false (rq : route_query) (i : nat) :
  zero_or_absent (rq_capacities rq) i -> fast_path rq i = false.
Proof. unfold fast_path. intros [-> | ->]; reflexivity. Qed.


(** ** The layer fold *)

(** The limits of the [kind] constraints the layers assert on [scidd], in
    layer order. *)
Fixpoint limits (ls : list layer) (scidd : short_channel_id_dir) (kind : constraint_type)
    : list Z :=
  match ls with
  | [] => []
  | l :: ls =>
      match layer_find_constraint l scidd kind with
      | Some c => c_limit c :: limits ls scidd kind
      | None => limits ls scidd kind
      end
  end.

Lemma fold_right_max_shift (a x : Z) (xs : list Z) :
  fold_right Z.max (Z.max a x) xs = Z.max x (fold_right Z.max a xs).
Proof. induction xs as [|y ys IH]; simpl; [lia|]. rewrite IH. lia. Qed.

Lemma fold_right_min_shift (a x : Z) (xs : list Z) :
  fold_right Z.min (Z.min a x) xs = Z.min x (fold_right Z.min a xs).
Proof. induction xs as [|y ys IH]; simpl; [lia|]. rewrite IH. lia. Qed.

Lemma constraints_fold_limits (ls : list layer) (scidd : short_channel_id_dir) (a b : Z) :
  constraints_fold ls scidd (a, b) =
  (fold_right Z.max a (limits ls scidd CONSTRAINT_MIN),
   fold_right Z.min b (limits ls scidd CONSTRAINT_MAX)).
Proof.
  unfold constraints_fold. revert a b.
  induction ls as [|l ls IH]; intros a b; simpl; [reflexivity|].
  rewrite IH.
  destruct (layer_find_constraint l scidd CONSTRAINT_MIN) as [cmin|];
  destruct (layer_find_constraint l scidd CONSTRAINT_MAX) as [cmax|]; simpl;
  rewrite ?fold_right_max_shift, ?fold_right_min_shift, <-?fold_right_max_shift,
          <-?fold_right_min_shift; f_equal; f_equal;
  repeat match goal with |- context [?x >? ?y] => destruct (Z.gtb_spec x y) end;
  repeat match goal with |- context [?x <? ?y] => destruct (Z.ltb_spec x y) end;
  lia.
Qed.

Lemma constraint_step_eq (scidd : short_channel_id_dir) (a b : Z) (l : layer) :
  constraint_step scidd (a, b) l =
  (match layer_find_constraint l scidd CONSTRAINT_MIN with
   | Some c => Z.max a (c_limit c) | None => a end,
   match layer_find_constraint l scidd CONSTRAINT_MAX with
   | Some c => Z.min b (c_limit c) | None => b end).
Proof.
  unfold constraint_step.
  destruct (layer_find_constraint l scidd CONSTRAINT_MIN) as [c1|];
  destruct (layer_find_constraint l scidd CONSTRAINT_MAX) as [c2|]; f_equal;
  repeat match goal with |- context [?x >? ?y] => destruct (Z.gtb_spec x y) end;
  repeat match goal with |- context [?x <? ?y] => destruct (Z.ltb_spec x y) end;
  lia.
Qed.

Lemma constraint_step_comm (scidd : short_channel_id_dir) (p : Z * Z) (l1 l2 : layer) :
  constraint_step scidd (constraint_step scidd p l1) l2 =
  constraint_step scidd (constraint_step scidd p l2) l1.
Proof.
  destruct p as [a b]. rewrite !constraint_step_eq.
  destruct (layer_find_constraint l1 scidd CONSTRAINT_MIN);
  destruct (layer_find_constraint l1 scidd CONSTRAINT_MAX);
  destruct (layer_find_constraint l2 scidd CONSTRAINT_MIN);
  destruct (layer_find_constraint l2 scidd CONSTRAINT_MAX); f_equal; lia.
Qed.

Lemma constraints_fold_perm (ls ls' : list layer) (scidd : short_channel_id_dir) (p : Z * Z) :
  Permutation ls ls' -> constraints_fold ls scidd p = constraints_fold ls' scidd p.
Proof.
  unfold constraints_fold. intros Hperm. revert p.
  induction Hperm as [|l ls ls' _ IH|l1 l2 ls|ls ls' ls'' _ IH1 _ IH2]; intros p; simpl.
  - reflexivity.
  - apply IH.
  - rewrite constraint_step_comm. reflexivity.
  - rewrite IH1. apply IH2.
Qed.

Lemma limits_none (ls : list layer) (scidd : short_channel_id_dir) (kind : constraint_type) :
  (forall l, In l ls -> layer_find_constraint l scidd kind = None) ->
  limits ls scidd kind = [].
Proof.
  induction ls as [|l ls IH]; intros H; simpl; [reflexivity|].
  rewrite (H l (or_introl eq_refl)). apply IH. intros l' Hin. apply H. right. exact Hin.
Qed.

Lemma amount_msat_sub_sat (a b : Z) :
  match amount_msat_sub a b with Some v => v | None => 0 end = if a <? b then 0 else a - b.
Proof. unfold amount_msat_sub. destruct (a <? b); reflexivity. Qed.

(** ** C1: the fast path *)




(** ** C2: channels nobody asserts anything about *)

(** The claim as stated: the result is exactly (0, capacity_msat).  False on
    the spec's own channel of 1,000,000 sat: through the fp16 cache the
    fast path answers 1,000,192,000 msat. *)
Lemma C2_fast_path_not_exact :
  let '(_, rq, _) := get_routes_prepare askrene_01 [] in
  rq_layers rq = [] /\ find_reserve (rq_reserved rq) scidd_01_0 = None /\
  gossmap_chan_get_capacity (rq_gossmap rq) chan_01 = Some 1000000 /\
  get_constraints rq chan_01 0 = (0, 1000192000) /\
  get_constraints rq chan_01 0 <> (0, 1000000 * 1000).
Proof. vm_compute. repeat split; discriminate. Qed.

(** C2 (amended): with no MIN/MAX constraint in any selected layer and no
    reservation, [get_constraints] returns min = 0, and max = capacity_msat
    exactly on the slow path, or fp16_to_u64(cache[idx]) * 1000 on the fast
    path. *)
Theorem get_constraints_unconstrained (rq : route_query) (chan : gossmap_chan)
    (dir cap : Z)
    (Hcap : gossmap_chan_get_capacity (rq_gossmap rq) chan = Some cap)
    (Hrange : 0 <= cap * 1000 <= u64_max)
    (Hlayers : forall l, In l (rq_layers rq) ->
       forall kind, layer_find_constraint l
                      (mk_scidd (gossmap_chan_scid (rq_gossmap rq) chan) dir) kind = None)
    (Hres : find_reserve (rq_reserved rq)
              (mk_scidd (gossmap_chan_scid (rq_gossmap rq) chan) dir) = None) :
  let idx := gossmap_chan_idx (rq_gossmap rq) chan in
  get_constraints rq chan dir =
  (0, if fast_path rq idx
      then u64_wrap (fp16_to_u64 (nth idx (rq_capacities rq) 0) * 1000)
      else cap * 1000).
Proof.
  intros idx. unfold get_constraints. fold idx.
  destruct (fast_path rq idx); [reflexivity|].
  rewrite constraints_fold_limits.
  rewrite !limits_none by (intros l Hin; apply Hlayers; exact Hin). simpl.
  unfold capacity_fallback. rewrite Z.eqb_refl, Hcap. unfold amount_sat_to_msat.
  destruct (Z.ltb_spec u64_max (cap * 1000)); [lia|].
  unfold reserve_subtract. rewrite Hres. reflexivity.
Qed.

Lemma get_constraints_unconstrained_witness :
  get_constraints (mk_route_query graph_01 [] [] [0]) chan_01 0 = (0, 1000000000).
Proof.
  refine (eq_trans (get_constraints_unconstrained (mk_route_query graph_01 [] [] [0])
                      chan_01 0 1000000 eq_refl _ _ eq_refl) _).
  - unfold u64_max. lia.
  - intros l [].
  - reflexivity.
Defined.

(** fp16 is exact on small capacities. *)
Lemma fp16_exact_small (cap : Z) :
  0 <= cap < 2 ^ 11 -> fp16_to_u64 (u64_to_fp16 cap true) = cap.
Proof.
  intros H. unfold u64_to_fp16. change (Z.shiftl 1 FP16_MANTISSA_BITS) with (2 ^ 11).
  destruct (Z.ltb_spec cap (2 ^ 11)); [|lia].
  unfold fp16_to_u64. change FP16_MANTISSA_BITS with 11.
  rewrite Z.shiftr_div_pow2 by lia. rewrite Z.div_small by lia. simpl.
  rewrite Z.land_ones by lia. apply Z.mod_small. lia.
Qed.

(** ** C6: the layer fold *)

(** The claim as stated: the effective maximum is the minimum of the MAX
    limits, the capacity being used only when no MAX constraint applies.
    False: a MAX constraint of 2^64-1 msat equals the "unbounded" sentinel,
    and the capacity (1,000,000,000 msat) is used instead. *)
Lemma C6_max_limit_is_sentinel :
  let '(_, rq, _) := get_routes_prepare askrene_L ["L"%string] in
  fast_path rq (gc_idx chan_01) = false /\
  find_reserve (rq_reserved rq) scidd_01_0 = None /\
  limits (rq_layers rq) scidd_01_0 CONSTRAINT_MAX = [u64_max] /\
  get_constraints rq chan_01 0 = (700000000, 1000000000) /\
  snd (get_constraints rq chan_01 0) <> u64_max.
Proof. vm_compute. repeat split; discriminate. Qed.

(** C6 (amended): on the slow path the layer fold yields
    min = max(0, MIN limits) and max = min(2^64-1, MAX limits); the capacity
    fallback replaces that max when it equals 2^64-1, then reservations are
    subtracted; the result does not depend on the order of the layers. *)
Theorem get_constraints_layer_fold (rq : route_query) (chan : gossmap_chan) (dir : Z)
    (layers' : list layer) (Hperm : Permutation (rq_layers rq) layers') :
  let scidd := mk_scidd (gossmap_chan_scid (rq_gossmap rq) chan) dir in
  (fast_path rq (gossmap_chan_idx (rq_gossmap rq) chan) = false ->
   get_constraints rq chan dir =
   reserve_subtract (rq_reserved rq) scidd
     (fold_right Z.max 0 (limits (rq_layers rq) scidd CONSTRAINT_MIN),
      capacity_fallback (rq_gossmap rq) chan
        (fold_right Z.min AMOUNT_MSAT_MAX (limits (rq_layers rq) scidd CONSTRAINT_MAX)))) /\
  get_constraints (mk_route_query (rq_gossmap rq) (rq_reserved rq) layers'
                                  (rq_capacities rq)) chan dir =
  get_constraints rq chan dir.
Proof.
  intros scidd. split.
  - intros Hslow. unfold get_constraints. rewrite Hslow. fold scidd.
    rewrite constraints_fold_limits. reflexivity.
  - unfold get_constraints, fast_path. simpl.
    rewrite (constraints_fold_perm layers' (rq_layers rq))
      by (symmetry; exact Hperm).
    reflexivity.
Qed.

Lemma get_constraints_layer_fold_witness :
  let rq := mk_route_query graph_01 [] [layer_L; layer_conflict] [0] in
  get_constraints rq chan_01 0 = (700000000, 500000000) /\
  get_constraints (mk_route_query graph_01 [] [layer_conflict; layer_L] [0]) chan_01 0
  = get_constraints rq chan_01 0.
Proof.
  intros rq. split; [vm_compute; reflexivity|].
  exact (proj2 (get_constraints_layer_fold rq chan_01 0 [layer_conflict; layer_L]
                  (perm_swap layer_conflict layer_L []))).
Defined.

(** ** C9: reservation subtraction *)




(** ** The dummy route of [get_routes] *)




Definition askrene_empty : askrene :=
  mk_askrene graph_01 graph_01 (get_capacities graph_01) [] [].

(** C3 (code bug): on the spec's scenario 1 (getroutes(A, B, 500,000,000
    msat, []) over the single channel 0x01), [getroutes] does not answer one
    route of one hop with probability_ppm 1,000,000: writing the dummy route
    through an indeterminate pointer is undefined. *)
Theorem getroutes_scenario1_undefined :
  exists st', json_getroutes askrene_empty node_A node_B 500000000 [] = (CmdUB, st').
Proof. eexists. vm_compute. reflexivity. Qed.

(** C5 (code bug): with a layer declaring a local channel, [get_routes]
    reaches its undefined write with the overlay applied: the map then holds
    the local channel, and [gossmap_remove_localmods] is never reached. *)
Theorem get_routes_overlay_left_applied :
  exists st',
    get_routes askrene_01 node_A node_B 1000 ["local"%string] = GR_UB st' /\
    length (gm_chans (ask_gossmap st')) = 2%nat /\
    length (gm_chans (ask_gossmap askrene_01)) = 1%nat /\
    ask_gossmap st' <> ask_gossmap askrene_01.
Proof.
  eexists. split; [vm_compute; reflexivity|].
  vm_compute. split; [reflexivity|]. split; [reflexivity|]. discriminate.
Qed.


(** ** The reservation command *)





(** ** Lookups in lists updated in place *)

Lemma find_map_id {A : Type} (P : A -> bool) (f : A -> A) (xs : list A) :
  (forall x, P (f x) = P x) -> (forall x, P x = true -> f x = x) ->
  List.find P (map f xs) = List.find P xs.
Proof.
  intros H1 H2. induction xs as [|x xs IH]; simpl; [reflexivity|].
  rewrite H1. destruct (P x) eqn:Hx; [rewrite H2 by exact Hx; reflexivity|exact IH].
Qed.

Lemma find_map_replace {A : Type} (P : A -> bool) (c : A) (xs : list A) :
  P c = true ->
  List.find P (map (fun x => if P x then c else x) xs) = option_map (fun _ => c) (List.find P xs).
Proof.
  intros Hc. induction xs as [|x xs IH]; simpl; [reflexivity|].
  destruct (P x) eqn:Hx; simpl; [rewrite Hc; reflexivity|rewrite Hx; exact IH].
Qed.

Lemma find_app_one {A : Type} (P : A -> bool) (c : A) (xs : list A) :
  List.find P (xs ++ [c]) =
  match List.find P xs with Some x => Some x | None => if P c then Some c else None end.
Proof.
  induction xs as [|x xs IH]; simpl; [destruct (P c); reflexivity|].
  destruct (P x); [reflexivity|exact IH].
Qed.

Lemma existsb_find {A : Type} (P : A -> bool) (xs : list A) :
  existsb P xs = match List.find P xs with Some _ => true | None => false end.
Proof.
  induction xs as [|x xs IH]; simpl; [reflexivity|]. destruct (P x); [reflexivity|exact IH].
Qed.

Lemma scidd_eqb_spec (a b : short_channel_id_dir) : scidd_eqb a b = true <-> a = b.
Proof.
  destruct a as [s1 d1], b as [s2 d2]. unfold scidd_eqb. simpl.
  rewrite andb_true_iff, !Z.eqb_eq. split; [intros [-> ->]; reflexivity|].
  intros H. injection H as -> ->. split; reflexivity.
Qed.

Lemma constraint_type_eqb_spec (a b : constraint_type) :
  constraint_type_eqb a b = true <-> a = b.
Proof. destruct a, b; simpl; split; congruence. Qed.

(** ** The layer store *)

Lemma find_layer_name (st : askrene) (name : string) (l : layer) :
  find_layer st name = Some l -> layer_name l = name.
Proof.
  unfold find_layer. intros H. apply List.find_some in H as [_ H].
  apply String.eqb_eq. exact H.
Qed.

Lemma layer_store_update_props (st : askrene) (name : string) (l' : layer) :
  layer_name l' = name -> (exists l0, find_layer st name = Some l0) ->
  find_layer (layer_store_update st l') name = Some l' /\
  (forall name', name' <> name ->
     find_layer (layer_store_update st l') name' = find_layer st name') /\
  ask_reserved (layer_store_update st l') = ask_reserved st /\
  ask_gossmap (layer_store_update st l') = ask_gossmap st.
Proof.
  intros Hname [l0 Hl0]. unfold find_layer, layer_store_update in *. simpl.
  split; [|split; [|split; reflexivity]].
  - rewrite Hname. rewrite (find_map_replace (fun l => String.eqb (layer_name l) name) l').
    + rewrite Hl0. reflexivity.
    + apply String.eqb_eq. exact Hname.
  - intros name' Hne. rewrite Hname. apply find_map_id.
    + intros x. destruct (String.eqb_spec (layer_name x) name) as [Hx|Hx].
      * rewrite Hname, Hx. reflexivity.
      * reflexivity.
    + intros x Hx. apply String.eqb_eq in Hx.
      destruct (String.eqb_spec (layer_name x) name); [congruence|reflexivity].
Qed.

Lemma new_layer_props (st : askrene) (name : string) :
  find_layer st name = None ->
  snd (new_layer st name) = mk_layer name [] [] [] /\
  find_layer (fst (new_layer st name)) name = Some (mk_layer name [] [] []) /\
  (forall name', name' <> name ->
     find_layer (fst (new_layer st name)) name' = find_layer st name') /\
  ask_reserved (fst (new_layer st name)) = ask_reserved st /\
  ask_gossmap (fst (new_layer st name)) = ask_gossmap st.
Proof.
  intros Hnone. unfold find_layer, new_layer in *. simpl.
  split; [reflexivity|]. split; [|split; [|split; reflexivity]].
  - rewrite find_app_one, Hnone. simpl. rewrite String.eqb_refl. reflexivity.
  - intros name' Hne. rewrite find_app_one. simpl.
    destruct (List.find (fun l => String.eqb (layer_name l) name') (ask_layers st)); [reflexivity|].
    destruct (String.eqb_spec name name'); [congruence|reflexivity].
Qed.

(** A command that finds or creates the layer [name] and writes back
    [upd layer]. *)
Lemma layer_find_or_create (st : askrene) (name : string) (upd : layer -> layer) :
  (forall l, layer_name (upd l) = layer_name l) ->
  let old := match find_layer st name with Some l => l | None => mk_layer name [] [] [] end in
  let '(st1, layer) := match find_layer st name with
                       | Some layer => (st, layer)
                       | None => new_layer st name
                       end in
  layer = old /\
  find_layer (layer_store_update st1 (upd layer)) name = Some (upd layer) /\
  (forall name', name' <> name ->
     find_layer (layer_store_update st1 (upd layer)) name' = find_layer st name') /\
  ask_reserved (layer_store_update st1 (upd layer)) = ask_reserved st /\
  ask_gossmap (layer_store_update st1 (upd layer)) = ask_gossmap st.
Proof.
  intros Hupd old. unfold old. destruct (find_layer st name) as [l|] eqn:Hf.
  - split; [reflexivity|].
    apply layer_store_update_props.
    + rewrite Hupd. eapply find_layer_name. exact Hf.
    + exists l. exact Hf.
  - destruct (new_layer_props st name Hf) as (Hsnd & Hfind & Hother & Hres & Hg).
    destruct (new_layer st name) as [st1 l] eqn:Hnew. simpl in *. subst l.
    split; [reflexivity|].
    destruct (layer_store_update_props st1 name (upd (mk_layer name [] [] [])))
      as (H1 & H2 & H3 & H4).
    + rewrite Hupd. reflexivity.
    + eexists. exact Hfind.
    + split; [exact H1|]. split.
      * intros name' Hne. rewrite H2 by exact Hne. apply Hother. exact Hne.
      * split; congruence.
Qed.

(** ** Layer updates *)

Lemma layer_update_constraint_find (l : layer) (scidd : short_channel_id_dir)
    (kind : constraint_type) (ts lim : Z) (s : short_channel_id_dir) (k : constraint_type) :
  layer_find_constraint (fst (layer_update_constraint l scidd kind ts lim)) s k =
  if scidd_eqb s scidd && constraint_type_eqb k kind
  then Some (mk_constraint scidd kind ts lim)
  else layer_find_constraint l s k.
Proof.
  unfold layer_update_constraint, layer_find_constraint. cbn.
  destruct (scidd_eqb s scidd && constraint_type_eqb k kind) eqn:E.
  - apply andb_true_iff in E as [E1 E2].
    apply scidd_eqb_spec in E1. apply constraint_type_eqb_spec in E2. subst s k.
    assert (Hc : scidd_eqb scidd scidd && constraint_type_eqb kind kind = true).
    { apply andb_true_iff. split; [apply scidd_eqb_spec|apply constraint_type_eqb_spec];
      reflexivity. }
    rewrite existsb_find.
    destruct (List.find _ (layer_constraints l)) eqn:Hfind.
    + rewrite find_map_replace by exact Hc. rewrite Hfind. reflexivity.
    + rewrite find_app_one, Hfind. simpl. rewrite Hc. reflexivity.
  - assert (Hne : forall x, scidd_eqb (c_scidd x) scidd && constraint_type_eqb (c_type x) kind = true ->
                  scidd_eqb (c_scidd x) s && constraint_type_eqb (c_type x) k = false).
    { intros x Hx. apply andb_true_iff in Hx as [Hx1 Hx2].
      apply scidd_eqb_spec in Hx1. apply constraint_type_eqb_spec in Hx2.
      rewrite Hx1, Hx2. destruct (scidd_eqb scidd s && constraint_type_eqb kind k) eqn:Hy;
        [|reflexivity].
      apply andb_true_iff in Hy as [Hy1 Hy2].
      apply scidd_eqb_spec in Hy1. apply constraint_type_eqb_spec in Hy2. subst.
      rewrite <- E. symmetry. apply andb_true_iff.
      split; [apply scidd_eqb_spec|apply constraint_type_eqb_spec]; reflexivity. }
    assert (Hc : scidd_eqb scidd s && constraint_type_eqb kind k = false)
      by exact (Hne (mk_constraint scidd kind ts lim)
                  ltac:(apply andb_true_iff; split;
                        [apply scidd_eqb_spec|apply constraint_type_eqb_spec]; reflexivity)).
    destruct (existsb _ _).
    + apply find_map_id.
      * intros x. destruct (scidd_eqb (c_scidd x) scidd && constraint_type_eqb (c_type x) kind) eqn:Hx.
        -- cbn. rewrite Hc. symmetry. apply Hne. exact Hx.
        -- reflexivity.
      * intros x Hx. destruct (scidd_eqb (c_scidd x) scidd && constraint_type_eqb (c_type x) kind) eqn:Hm.
        -- rewrite (Hne x Hm) in Hx. discriminate.
        -- reflexivity.
    + rewrite find_app_one. cbn. rewrite Hc.
      destruct (List.find _ (layer_constraints l)); reflexivity.
Qed.

Lemma layer_update_local_channel_find (l : layer) (src dst : node_id) (scid : short_channel_id)
    (capacity base_fee proportional_fee delay htlc_min htlc_max : Z) (s : short_channel_id) :
  layer_find_local_channel (layer_update_local_channel l src dst scid capacity base_fee
                              proportional_fee delay htlc_min htlc_max) s =
  if s =? scid
  then Some (mk_local_channel scid src dst capacity base_fee proportional_fee delay
                              htlc_min htlc_max)
  else layer_find_local_channel l s.
Proof.
  unfold layer_update_local_channel, layer_find_local_channel. cbn.
  destruct (Z.eqb_spec s scid) as [->|Hne].
  - rewrite existsb_find. destruct (List.find _ (layer_local_channels l)) eqn:Hfind.
    + rewrite find_map_replace by apply Z.eqb_refl. rewrite Hfind. reflexivity.
    + rewrite find_app_one, Hfind. cbn. rewrite Z.eqb_refl. reflexivity.
  - destruct (existsb _ _).
    + apply find_map_id.
      * intros x. destruct (Z.eqb_spec (lc_scid x) scid) as [Hx|Hx]; cbn.
        -- destruct (Z.eqb_spec scid s); [congruence|]. symmetry. apply Z.eqb_neq. congruence.
        -- reflexivity.
      * intros x Hx. apply Z.eqb_eq in Hx.
        destruct (Z.eqb_spec (lc_scid x) scid); [congruence|reflexivity].
    + rewrite find_app_one. cbn. destruct (Z.eqb_spec scid s); [congruence|].
      destruct (List.find _ (layer_local_channels l)); reflexivity.
Qed.

Lemma layer_update_constraint_snd (l : layer) (scidd : short_channel_id_dir)
    (kind : constraint_type) (ts lim : Z) :
  snd (layer_update_constraint l scidd kind ts lim) = mk_constraint scidd kind ts lim.
Proof. reflexivity. Qed.

(** The tail of [inform-channel]: find or create the layer, then update one
    constraint. *)
Lemma inform_channel_update (st : askrene) (name : string) (scidd : short_channel_id_dir)
    (kind : constraint_type) (now limit : Z) :
  let '(st1, layer) := match find_layer st name with
                       | Some layer => (st, layer)
                       | None => new_layer st name
                       end in
  let '(l', c) := layer_update_constraint layer scidd kind now limit in
  c = mk_constraint scidd kind now limit /\
  find_layer (layer_store_update st1 l') name = Some l' /\
  (forall s k, layer_find_constraint l' s k =
     if scidd_eqb s scidd && constraint_type_eqb k kind then Some c
     else match find_layer st name with
          | Some l => layer_find_constraint l s k
          | None => None
          end) /\
  (forall name', name' <> name ->
     find_layer (layer_store_update st1 l') name' = find_layer st name') /\
  ask_reserved (layer_store_update st1 l') = ask_reserved st /\
  ask_gossmap (layer_store_update st1 l') = ask_gossmap st.
Proof.
  pose proof (layer_find_or_create st name
                (fun l => fst (layer_update_constraint l scidd kind now limit))
                (fun l => eq_refl)) as H.
  cbv zeta in H.
  destruct (find_layer st name) as [l|] eqn:Hf.
  - destruct (layer_update_constraint l scidd kind now limit) as [l' c] eqn:Hu.
    simpl in H. destruct H as (_ & H1 & H2 & H3 & H4).
    pose proof (f_equal snd Hu) as Hc. rewrite layer_update_constraint_snd in Hc.
    simpl in Hc. subst c.
    split; [reflexivity|]. split; [exact H1|]. split; [|split; [exact H2|split; assumption]].
    intros s k. pose proof (layer_update_constraint_find l scidd kind now limit s k) as E.
    rewrite Hu in E. exact E.
  - destruct (new_layer st name) as [st1 l1] eqn:Hn.
    destruct H as (Hl1 & H).
    subst l1.
    destruct (layer_update_constraint (mk_layer name [] [] []) scidd kind now limit)
      as [l' c] eqn:Hu.
    simpl in H. destruct H as (H1 & H2 & H3 & H4).
    pose proof (f_equal snd Hu) as Hc. rewrite layer_update_constraint_snd in Hc.
    simpl in Hc. subst c.
    split; [reflexivity|]. split; [exact H1|]. split; [|split; [exact H2|split; assumption]].
    intros s k.
    pose proof (layer_update_constraint_find (mk_layer name [] [] []) scidd kind now limit s k)
      as E.
    rewrite Hu in E. exact E.
Qed.

(** C7: inform-channel needs exactly one of minimum_msat/maximum_msat:
    otherwise it fails with an invalid-params error leaving the state as it
    was; with exactly one it inserts or replaces only the constraint of that
    kind on (layer, scid, dir), creating the layer if needed, and leaves
    every other constraint and every other layer as it was.  (Check-only
    requests stop after the validation.) *)
Theorem inform_channel_exactly_one (now : Z) (st : askrene) (name : string)
    (scid dir : Z) (min max : option Z) :
  (forall check_only, supplied min = supplied max ->
     json_askrene_inform_channel check_only now st name scid dir min max =
     (CmdFail JSONRPC2_INVALID_PARAMS MsgExactlyOne, st)) /\
  (supplied min <> supplied max ->
     json_askrene_inform_channel true now st name scid dir min max = (CmdCheckDone, st)) /\
  (supplied min <> supplied max ->
     let kind := if supplied min then CONSTRAINT_MIN else CONSTRAINT_MAX in
     let limit := match min, max with Some m, _ => m | None, Some m => m | None, None => 0 end in
     let scidd := mk_scidd scid dir in
     let c := mk_constraint scidd kind now limit in
     exists st' l',
       json_askrene_inform_channel false now st name scid dir min max =
       (CmdSuccess (JConstraint c), st') /\
       find_layer st' name = Some l' /\
       (forall s k, layer_find_constraint l' s k =
          if scidd_eqb s scidd && constraint_type_eqb k kind then Some c
          else match find_layer st name with
               | Some l => layer_find_constraint l s k
               | None => None
               end) /\
       (forall name', name' <> name -> find_layer st' name' = find_layer st name') /\
       ask_reserved st' = ask_reserved st /\ ask_gossmap st' = ask_gossmap st).
Proof.
  split; [|split].
  - intros check_only H. unfold json_askrene_inform_channel.
    destruct min, max; simpl in H; try discriminate H; reflexivity.
  - intros H. unfold json_askrene_inform_channel.
    destruct min, max; simpl in H; try congruence; reflexivity.
  - intros H. cbv zeta. unfold json_askrene_inform_channel.
    destruct min as [m|], max as [m'|]; simpl in H; try congruence;
      [ pose proof (inform_channel_update st name (mk_scidd scid dir) CONSTRAINT_MIN now m) as T
      | pose proof (inform_channel_update st name (mk_scidd scid dir) CONSTRAINT_MAX now m') as T ];
      cbn -[layer_update_constraint new_layer find_layer layer_store_update
            layer_find_constraint scidd_eqb];
      (destruct (find_layer st name) as [l|] eqn:Hf;
       [| destruct (new_layer st name) as [st1 l] eqn:Hn]);
      match type of T with
      | context [layer_update_constraint ?ly ?sd ?kd ?t ?lim] =>
          destruct (layer_update_constraint ly sd kd t lim) as [l' c'] eqn:Hu
      end;
      destruct T as (-> & T1 & T2 & T3 & T4 & T5);
      eexists; exists l'; (split; [reflexivity|]); auto.
Qed.

Lemma inform_channel_exactly_one_witness :
  exists st' l',
    json_askrene_inform_channel false 1000 askrene_empty "L" 0x02 1 None (Some 100) =
    (CmdSuccess (JConstraint (mk_constraint (mk_scidd 0x02 1) CONSTRAINT_MAX 1000 100)), st') /\
    find_layer st' "L" = Some l' /\
    layer_find_constraint l' (mk_scidd 0x02 1) CONSTRAINT_MAX
      = Some (mk_constraint (mk_scidd 0x02 1) CONSTRAINT_MAX 1000 100) /\
    layer_find_constraint l' (mk_scidd 0x02 1) CONSTRAINT_MIN = None.
Proof.
  destruct (proj2 (proj2 (inform_channel_exactly_one 1000 askrene_empty "L" 0x02 1
                            None (Some 100))) ltac:(discriminate))
    as (st' & l' & H1 & H2 & H3 & _).
  exists st', l'. split; [exact H1|]. split; [exact H2|].
  rewrite !H3. split; reflexivity.
Defined.

(** C8: create-channel on a layer that already has a local channel for the
    scid fails, leaving the state as it was, when that channel differs in
    endpoints or capacity; otherwise it creates the layer if needed and
    inserts or replaces the local channel, leaving the layer's other local
    channels, its constraints and the other layers as they were.  (Check-only
    requests stop after the validation.) *)
Theorem create_channel_must_match (st : askrene) (name : string) (src dst : node_id)
    (scid capacity htlc_min htlc_max base_fee proportional_fee delay : Z) :
  let ok := forall l lc, find_layer st name = Some l ->
              layer_find_local_channel l scid = Some lc ->
              layer_check_local_channel lc src dst capacity = true in
  (forall check_only l lc, find_layer st name = Some l ->
     layer_find_local_channel l scid = Some lc ->
     layer_check_local_channel lc src dst capacity = false ->
     json_askrene_create_channel check_only st name src dst scid capacity htlc_min
       htlc_max base_fee proportional_fee delay =
     (CmdFail JSONRPC2_INVALID_PARAMS MsgChannelExists, st)) /\
  (ok ->
     json_askrene_create_channel true st name src dst scid capacity htlc_min
       htlc_max base_fee proportional_fee delay = (CmdCheckDone, st)) /\
  (ok ->
     exists st' l',
       json_askrene_create_channel false st name src dst scid capacity htlc_min
         htlc_max base_fee proportional_fee delay = (CmdSuccess JEmpty, st') /\
       find_layer st' name = Some l' /\
       (forall s, layer_find_local_channel l' s =
          if s =? scid
          then Some (mk_local_channel scid src dst capacity base_fee proportional_fee
                                      delay htlc_min htlc_max)
          else match find_layer st name with
               | Some l => layer_find_local_channel l s
               | None => None
               end) /\
       layer_constraints l' = match find_layer st name with
                              | Some l => layer_constraints l
                              | None => []
                              end /\
       (forall name', name' <> name -> find_layer st' name' = find_layer st name') /\
       ask_reserved st' = ask_reserved st /\ ask_gossmap st' = ask_gossmap st).
Proof.
  intros ok. split; [|split].
  - intros check_only l lc Hf Hlc Hchk. unfold json_askrene_create_channel.
    rewrite Hf, Hlc, Hchk. reflexivity.
  - intros Hok. unfold json_askrene_create_channel.
    destruct (find_layer st name) as [l|] eqn:Hf; [|reflexivity].
    destruct (layer_find_local_channel l scid) as [lc|] eqn:Hlc; [|reflexivity].
    rewrite (Hok l lc eq_refl Hlc). reflexivity.
  - intros Hok.
    pose proof (layer_find_or_create st name
                  (fun l => layer_update_local_channel l src dst scid capacity base_fee
                              proportional_fee delay htlc_min htlc_max)
                  (fun l => eq_refl)) as T.
    cbv zeta in T. unfold json_askrene_create_channel.
    destruct (find_layer st name) as [l|] eqn:Hf.
    + assert (Hbad : match layer_find_local_channel l scid with
                     | Some lc => negb (layer_check_local_channel lc src dst capacity)
                     | None => false
                     end = false).
      { destruct (layer_find_local_channel l scid) as [lc|] eqn:Hlc; [|reflexivity].
        rewrite (Hok l lc eq_refl Hlc). reflexivity. }
      rewrite Hbad. destruct T as (_ & T1 & T2 & T3 & T4).
      eexists. eexists. split; [reflexivity|]. split; [exact T1|].
      split; [intros s; apply layer_update_local_channel_find|].
      split; [reflexivity|]. split; [exact T2|]. split; assumption.
    + destruct (new_layer st name) as [st1 l1] eqn:Hn.
      destruct T as (-> & T1 & T2 & T3 & T4).
      eexists. eexists. split; [reflexivity|]. split; [exact T1|].
      split; [intros s; apply layer_update_local_channel_find|].
      split; [reflexivity|]. split; [exact T2|]. split; assumption.
Qed.

Definition askrene_local : askrene :=
  mk_askrene graph_01 graph_01 (get_capacities graph_01) [] [layer_local].

(** Spec scenario 5: a second create-channel for 0x02 with another capacity
    fails; the same values succeed. *)
Lemma create_channel_must_match_witness :
  json_askrene_create_channel false askrene_local "local" node_B 3 0x02 6000000 0 6000000 0 0 6
  = (CmdFail JSONRPC2_INVALID_PARAMS MsgChannelExists, askrene_local) /\
  exists st' l',
    json_askrene_create_channel false askrene_local "local" node_B 3 0x02 5000000 0 5000000 1 0 6
    = (CmdSuccess JEmpty, st') /\
    find_layer st' "local" = Some l' /\
    layer_find_local_channel l' 0x02 = Some (mk_local_channel 0x02 node_B 3 5000000 1 0 6 0 5000000).
Proof.
  split.
  - exact (proj1 (create_channel_must_match askrene_local "local" node_B 3 0x02 6000000 0
                    6000000 0 0 6) false layer_local _ eq_refl eq_refl eq_refl).
  - destruct (proj2 (proj2 (create_channel_must_match askrene_local "local" node_B 3 0x02
                              5000000 0 5000000 1 0 6)))
      as (st' & l' & H1 & H2 & H3 & _).
    + intros l lc Hf Hlc. vm_compute in Hf. injection Hf as <-.
      vm_compute in Hlc. injection Hlc as <-. reflexivity.
    + exists st', l'. split; [exact H1|]. split; [exact H2|]. rewrite H3. reflexivity.
Defined.


(** * Further properties of the code *)

(** ** The fp16 capacity cache *)





Section get_capacities_fold.
Variable g : gossmap.

Let cap_step := fun (caps : list Z) (c : gossmap_chan) =>
  let cap := match gossmap_chan_get_capacity g c with
             | Some cap => cap
             | None => 0
             end in
  <[gossmap_chan_idx g c := u64_to_fp16 cap true]> caps.

Definition chan_cap16 (c : gossmap_chan) : Z :=
  u64_to_fp16 (match gc_capacity c with Some cap => cap | None => 0 end) true.

Lemma cap_fold_length (chans : list gossmap_chan) (caps : list Z) :
  length (fold_left cap_step chans caps) = length caps.
Proof.
  revert caps. induction chans as [|c chans IH]; intros caps; simpl; [reflexivity|].
  rewrite IH. unfold cap_step. apply length_insert.
Qed.

Lemma cap_fold_other (chans : list gossmap_chan) (caps : list Z) (i : nat) :
  ~ In i (map gc_idx chans) -> fold_left cap_step chans caps !! i = caps !! i.
Proof.
  revert caps. induction chans as [|c chans IH]; intros caps Hi; simpl; [reflexivity|].
  simpl in Hi. rewrite IH by tauto. unfold cap_step, gossmap_chan_idx.
  apply list_lookup_insert_ne. intros Heq. apply Hi. left. exact Heq.
Qed.

Lemma cap_fold_chan (chans : list gossmap_chan) (caps : list Z) (c : gossmap_chan) :
  NoDup (map gc_idx chans) -> In c chans -> (gc_idx c < length caps)%nat ->
  fold_left cap_step chans caps !! gc_idx c = Some (chan_cap16 c).
Proof.
  revert caps. induction chans as [|c0 chans IH]; intros caps Hnd Hin Hlt; simpl; [contradiction|].
  simpl in Hnd. apply NoDup_cons in Hnd as [Hnotin Hnd]. rewrite list_elem_of_In in Hnotin.
  destruct Hin as [Heq|Hin].
  - subst c0. rewrite cap_fold_other by exact Hnotin. unfold cap_step, gossmap_chan_idx.
    rewrite list_lookup_insert_eq by lia. reflexivity.
  - apply IH; [exact Hnd|exact Hin|]. unfold cap_step. rewrite length_insert. exact Hlt.
Qed.

End get_capacities_fold.

Lemma get_capacities_spec (g : gossmap) :
  NoDup (map gc_idx (gm_chans g)) ->
  (forall c, In c (gm_chans g) -> (gc_idx c < gm_max_chan_idx g)%nat) ->
  length (get_capacities g) = gm_max_chan_idx g /\
  (forall c, In c (gm_chans g) -> get_capacities g !! gc_idx c = Some (chan_cap16 c)) /\
  (forall i, (i < gm_max_chan_idx g)%nat -> (forall c, In c (gm_chans g) -> gc_idx c <> i) ->
     get_capacities g !! i = Some 0).
Proof.
  intros Hnd Hlt. unfold get_capacities.
  split; [|split].
  - rewrite (cap_fold_length g). apply length_replicate.
  - intros c Hin. apply (cap_fold_chan g); [exact Hnd|exact Hin|].
    rewrite length_replicate. apply Hlt. exact Hin.
  - intros i Hi Hnot. rewrite (cap_fold_other g).
    + apply lookup_replicate_2. exact Hi.
    + intros Hin. apply in_map_iff in Hin as (c & Heq & Hc). exact (Hnot c Hc Heq).
Qed.

(** [get_capacities] builds a cache of [gossmap_max_chan_idx] entries; when
    the channel indices are distinct and below that bound, the entry of each
    channel is its capacity (0 when unknown) compressed with rounding up, and
    every other entry is 0. *)
Theorem get_capacities_entries (g : gossmap) :
  NoDup (map gc_idx (gm_chans g)) ->
  (forall c, In c (gm_chans g) -> (gc_idx c < gm_max_chan_idx g)%nat) ->
  length (get_capacities g) = gm_max_chan_idx g /\
  (forall c, In c (gm_chans g) -> get_capacities g !! gc_idx c = Some (chan_cap16 c)) /\
  (forall i, (i < gm_max_chan_idx g)%nat -> (forall c, In c (gm_chans g) -> gc_idx c <> i) ->
     get_capacities g !! i = Some 0).
Proof. exact (get_capacities_spec g). Qed.

(** ** The first query after [init] *)

Lemma init_prepare_empty (g : gossmap) (st st' : askrene) (rq : route_query)
    (lm : gossmap_localmods) :
  init (Some g) = Some st -> get_routes_prepare st [] = (st', rq, lm) ->
  rq = mk_route_query g [] [] (get_capacities g).
Proof.
  intros Hi. injection Hi as <-. unfold get_routes_prepare, gossmap_refresh. simpl.
  rewrite Nat.ltb_irrefl. simpl. intros H. injection H as _ <- _. reflexivity.
Qed.



(** In the first query after [init], with no layers, a channel whose
    capacity is unknown has a cache entry of 0 and takes the slow path, where
    nothing bounds it: [get_constraints] gives (0, 2^64-1); a channel of
    capacity 0 gives (0, 0). *)
Theorem init_first_query_no_capacity (g : gossmap) (chan : gossmap_chan) (dir : Z) :
  NoDup (map gc_idx (gm_chans g)) ->
  (forall c, In c (gm_chans g) -> (gc_idx c < gm_max_chan_idx g)%nat) ->
  In chan (gm_chans g) ->
  forall st st' rq lm, init (Some g) = Some st -> get_routes_prepare st [] = (st', rq, lm) ->
  (gc_capacity chan = None -> get_constraints rq chan dir = (0, u64_max)) /\
  (gc_capacity chan = Some 0 -> get_constraints rq chan dir = (0, 0)).
Proof.
  intros Hnd Hlt Hin st st' rq lm Hi Hp.
  rewrite (init_prepare_empty g st st' rq lm Hi Hp).
  destruct (get_capacities_spec g Hnd Hlt) as (_ & Hent & _).
  pose proof (Hent chan Hin) as Hc. unfold chan_cap16 in Hc.
  split; intros Hcap; rewrite Hcap in Hc; change (u64_to_fp16 0 true) with 0 in Hc;
    unfold get_constraints, fast_path, gossmap_chan_idx; simpl; rewrite Hc; simpl;
    unfold capacity_fallback, gossmap_chan_get_capacity; rewrite Hcap; reflexivity.
Qed.

Lemma init_first_query_no_capacity_witness :
  get_constraints (mk_route_query graph_three [] [] (get_capacities graph_three))
    chan_02_nocap 0 = (0, u64_max) /\
  get_constraints (mk_route_query graph_three [] [] (get_capacities graph_three))
    chan_03_empty 1 = (0, 0).
Proof.
  split.
  - apply (proj1 (init_first_query_no_capacity graph_three chan_02_nocap 0
             ltac:(apply (bool_decide_unpack _); vm_compute; exact I)
             ltac:(intros c Hc; repeat destruct Hc as [<-|Hc]; [vm_compute; lia ..|contradiction])
             ltac:(right; left; reflexivity)
             _ _ _ _ eq_refl eq_refl)).
    reflexivity.
  - apply (proj2 (init_first_query_no_capacity graph_three chan_03_empty 1
             ltac:(apply (bool_decide_unpack _); vm_compute; exact I)
             ltac:(intros c Hc; repeat destruct Hc as [<-|Hc]; [vm_compute; lia ..|contradiction])
             ltac:(right; right; left; reflexivity)
             _ _ _ _ eq_refl eq_refl)).
    reflexivity.
Defined.

(** ** The range and monotonicity of [get_constraints] *)

Lemma layer_find_constraint_some (l : layer) (scidd : short_channel_id_dir)
    (kind : constraint_type) (c : constraint) :
  layer_find_constraint l scidd kind = Some c ->
  In c (layer_constraints l) /\ c_scidd c = scidd /\ c_type c = kind.
Proof.
  unfold layer_find_constraint. intros H. apply List.find_some in H as [Hin H].
  apply andb_true_iff in H as [H1 H2].
  apply scidd_eqb_spec in H1. apply constraint_type_eqb_spec in H2. auto.
Qed.


Lemma limits_of (ls : list layer) (scidd : short_channel_id_dir) (kind : constraint_type)
    (l : layer) (c : constraint) :
  In l ls -> layer_find_constraint l scidd kind = Some c -> In (c_limit c) (limits ls scidd kind).
Proof.
  induction ls as [|l' ls IH]; simpl; [contradiction|].
  intros [->|Hin] Hc.
  - rewrite Hc. left. reflexivity.
  - destruct (layer_find_constraint l' scidd kind); [right|]; apply IH; assumption.
Qed.

Lemma limits_app (ls1 ls2 : list layer) (scidd : short_channel_id_dir) (kind : constraint_type) :
  limits (ls1 ++ ls2) scidd kind = limits ls1 scidd kind ++ limits ls2 scidd kind.
Proof.
  induction ls1 as [|l ls IH]; simpl; [reflexivity|].
  destruct (layer_find_constraint l scidd kind); simpl; rewrite IH; reflexivity.
Qed.



Lemma fold_right_max_ge (a x : Z) (xs : list Z) :
  In x xs -> x <= fold_right Z.max a xs.
Proof. induction xs as [|y xs IH]; simpl; [contradiction|]. intros [->|H]; [lia|]. specialize (IH H). lia. Qed.

Lemma fold_right_max_base (a : Z) (xs : list Z) : a <= fold_right Z.max a xs.
Proof. induction xs as [|y xs IH]; simpl; lia. Qed.

Lemma fold_right_min_le (a x : Z) (xs : list Z) :
  In x xs -> fold_right Z.min a xs <= x.
Proof. induction xs as [|y xs IH]; simpl; [contradiction|]. intros [->|H]; [lia|]. specialize (IH H). lia. Qed.

Lemma fold_right_max_mono (a b : Z) (xs : list Z) :
  a <= b -> fold_right Z.max a xs <= fold_right Z.max b xs.
Proof. induction xs as [|y xs IH]; simpl; lia. Qed.

Lemma reserve_subtract_fst (reserved : reserve_hash) (scidd : short_channel_id_dir) (a b : Z) :
  fst (reserve_subtract reserved scidd (a, b)) =
  match find_reserve reserved scidd with
  | Some r => if a <? r_amount r then 0 else a - r_amount r
  | None => a
  end.
Proof.
  unfold reserve_subtract. destruct (find_reserve reserved scidd); [|reflexivity].
  simpl. apply amount_msat_sub_sat.
Qed.

Lemma reserve_subtract_snd (reserved : reserve_hash) (scidd : short_channel_id_dir) (a b : Z) :
  snd (reserve_subtract reserved scidd (a, b)) =
  match find_reserve reserved scidd with
  | Some r => if b <? r_amount r then 0 else b - r_amount r
  | None => b
  end.
Proof.
  unfold reserve_subtract. destruct (find_reserve reserved scidd); [|reflexivity].
  simpl. apply amount_msat_sub_sat.
Qed.

(** The slow path of [get_constraints], with the layer fold written as the
    folds of the MIN and MAX limits. *)
Lemma get_constraints_slow (rq : route_query) (chan : gossmap_chan) (dir : Z) :
  fast_path rq (gossmap_chan_idx (rq_gossmap rq) chan) = false ->
  let scidd := mk_scidd (gossmap_chan_scid (rq_gossmap rq) chan) dir in
  get_constraints rq chan dir =
  reserve_subtract (rq_reserved rq) scidd
    (fold_right Z.max 0 (limits (rq_layers rq) scidd CONSTRAINT_MIN),
     capacity_fallback (rq_gossmap rq) chan
       (fold_right Z.min AMOUNT_MSAT_MAX (limits (rq_layers rq) scidd CONSTRAINT_MAX))).
Proof.
  intros Hslow scidd. unfold get_constraints. rewrite Hslow.
  fold scidd. rewrite constraints_fold_limits. reflexivity.
Qed.




(** Selecting more layers never lowers the minimum [get_constraints] gives
    (the capacity cache being the same). *)
Theorem get_constraints_min_monotone (rq : route_query) (chan : gossmap_chan) (dir : Z)
    (more : list layer) :
  fst (get_constraints rq chan dir) <=
  fst (get_constraints (mk_route_query (rq_gossmap rq) (rq_reserved rq)
                                       (rq_layers rq ++ more) (rq_capacities rq)) chan dir).
Proof.
  set (rq' := mk_route_query _ _ _ _).
  destruct (fast_path rq (gossmap_chan_idx (rq_gossmap rq) chan)) eqn:Hfast.
  - unfold get_constraints. rewrite Hfast.
    replace (fast_path rq' _) with true by (unfold fast_path in *; exact (eq_sym Hfast)).
    simpl. lia.
  - assert (Hfast' : fast_path rq' (gossmap_chan_idx (rq_gossmap rq') chan) = false)
      by (unfold fast_path in *; exact Hfast).
    rewrite (get_constraints_slow rq chan dir Hfast), (get_constraints_slow rq' chan dir Hfast').
    unfold rq'. cbn [rq_layers rq_reserved rq_gossmap rq_capacities].
    rewrite !reserve_subtract_fst, limits_app, fold_right_app.
    set (scidd := mk_scidd _ dir).
    assert (Hle : fold_right Z.max 0 (limits (rq_layers rq) scidd CONSTRAINT_MIN) <=
                  fold_right Z.max (fold_right Z.max 0 (limits more scidd CONSTRAINT_MIN))
                             (limits (rq_layers rq) scidd CONSTRAINT_MIN))
      by (apply fold_right_max_mono, fold_right_max_base).
    destruct (find_reserve (rq_reserved rq) scidd) as [r|]; [|exact Hle].
    repeat match goal with |- context [?x <? ?y] => destruct (Z.ltb_spec x y) end; lia.
Qed.

(** ** The query context built by [get_routes] *)

Lemma clear_fold_keeps {A : Type} (key : A -> short_channel_id) (g : gossmap) (xs : list A)
    (caps : list Z) (i : nat) :
  zero_or_absent caps i ->
  zero_or_absent (fold_left (fun caps x => clear_capacity g (key x) caps) xs caps) i.
Proof.
  revert caps. induction xs as [|x xs IH]; intros caps H; simpl; [exact H|].
  apply IH. apply clear_capacity_keeps. exact H.
Qed.

Lemma clear_fold_zeroes {A : Type} (key : A -> short_channel_id) (g : gossmap) (xs : list A)
    (caps : list Z) (x : A) (ch : gossmap_chan) :
  In x xs -> gossmap_find_chan g (key x) = Some ch ->
  zero_or_absent (fold_left (fun caps x => clear_capacity g (key x) caps) xs caps) (gc_idx ch).
Proof.
  revert caps. induction xs as [|y xs IH]; intros caps Hin Hf; simpl in *; [contradiction|].
  destruct Hin as [<-|Hin].
  - apply clear_fold_keeps. apply clear_capacity_zeroes. exact Hf.
  - apply IH; assumption.
Qed.

Lemma layer_clear_keeps (l : layer) (g : gossmap) (caps : list Z) (i : nat) :
  zero_or_absent caps i -> zero_or_absent (layer_clear_overridden_capacities l g caps) i.
Proof.
  intros H. unfold layer_clear_overridden_capacities.
  apply (clear_fold_keeps lc_scid). apply (clear_fold_keeps (fun c => scidd_scid (c_scidd c))).
  exact H.
Qed.

Lemma layer_clear_zeroes (l : layer) (g : gossmap) (caps : list Z) (c : constraint)
    (ch : gossmap_chan) :
  In c (layer_constraints l) -> gossmap_find_chan g (scidd_scid (c_scidd c)) = Some ch ->
  zero_or_absent (layer_clear_overridden_capacities l g caps) (gc_idx ch).
Proof.
  intros Hin Hf. unfold layer_clear_overridden_capacities.
  apply (clear_fold_keeps lc_scid).
  exact (clear_fold_zeroes (fun c => scidd_scid (c_scidd c)) g _ caps c ch Hin Hf).
Qed.

(** What [get_routes] builds before applying the overlay. *)
Lemma get_routes_prepare_spec (st : askrene) (layers : list string) :
  let '(st', rq, localmods) := get_routes_prepare st layers in
  rq_gossmap rq = ask_gossmap st' /\ rq_reserved rq = ask_reserved st' /\
  rq_layers rq = omap (find_layer st) layers /\
  lm_channels localmods = concat (map layer_local_channels (omap (find_layer st) layers)) /\
  lm_disabled localmods = concat (map layer_disabled_nodes (omap (find_layer st) layers)) /\
  (forall l c ch, In l (rq_layers rq) -> In c (layer_constraints l) ->
     gossmap_find_chan (rq_gossmap rq) (scidd_scid (c_scidd c)) = Some ch ->
     zero_or_absent (rq_capacities rq) (gc_idx ch)).
Proof.
  unfold get_routes_prepare.
  destruct (gossmap_refresh (ask_gossmap st) (ask_store st)) as [adv g].
  set (st1 := if adv then _ else _).
  assert (Hfind : find_layer st1 = find_layer st)
    by (unfold st1, find_layer; destruct adv; reflexivity).
  unfold add_query_layers.
  set (f := fun '(rq, localmods) name => _).
  assert (Hinv : forall ls rq lm,
    rq_gossmap rq = ask_gossmap st1 -> rq_reserved rq = ask_reserved st1 ->
    (forall l c ch, In l (rq_layers rq) -> In c (layer_constraints l) ->
       gossmap_find_chan (rq_gossmap rq) (scidd_scid (c_scidd c)) = Some ch ->
       zero_or_absent (rq_capacities rq) (gc_idx ch)) ->
    let '(rq', lm') := fold_left f ls (rq, lm) in
    rq_gossmap rq' = ask_gossmap st1 /\ rq_reserved rq' = ask_reserved st1 /\
    rq_layers rq' = rq_layers rq ++ omap (find_layer st1) ls /\
    lm_channels lm' = lm_channels lm ++ concat (map layer_local_channels (omap (find_layer st1) ls)) /\
    lm_disabled lm' = lm_disabled lm ++ concat (map layer_disabled_nodes (omap (find_layer st1) ls)) /\
    (forall l c ch, In l (rq_layers rq') -> In c (layer_constraints l) ->
       gossmap_find_chan (rq_gossmap rq') (scidd_scid (c_scidd c)) = Some ch ->
       zero_or_absent (rq_capacities rq') (gc_idx ch))).
  { induction ls as [|n ls IH]; intros rq lm Hg Hr Hz.
    - simpl. rewrite !app_nil_r. repeat split; auto.
    - cbn [fold_left]. unfold f at 2. cbv beta iota.
      destruct (find_layer st1 n) as [l|] eqn:Hl.
      + match goal with |- context [fold_left f ls (?r, ?m)] =>
          specialize (IH r m Hg Hr) end.
        destruct (fold_left f ls _) as [rq' lm'].
        destruct IH as (H1 & H2 & H3 & H4 & H5 & H6).
        { intros l' c ch Hin Hc Hch. simpl in Hin, Hch |- *.
          apply in_app_or in Hin as [Hin|[<-|[]]].
          - apply layer_clear_keeps. exact (Hz l' c ch Hin Hc Hch).
          - rewrite Hg in Hch. apply (layer_clear_zeroes _ _ _ c ch Hc Hch). }
        simpl in H3, H4, H5. cbn [omap list_omap]. rewrite Hl.
        split; [exact H1|]. split; [exact H2|].
        split; [rewrite H3, <- app_assoc; reflexivity|].
        split; [rewrite H4, <- app_assoc; reflexivity|].
        split; [rewrite H5, <- app_assoc; reflexivity|exact H6].
      + specialize (IH rq lm Hg Hr Hz).
        destruct (fold_left f ls _) as [rq' lm'].
        cbn [omap list_omap]. rewrite Hl. exact IH. }
  specialize (Hinv layers (mk_route_query (ask_gossmap st1) (ask_reserved st1) []
                             (ask_capacities st1)) gossmap_localmods_new eq_refl eq_refl
                  ltac:(intros l c ch [])).
  destruct (fold_left f layers _) as [rq lm].
  destruct Hinv as (H1 & H2 & H3 & H4 & H5 & H6).
  rewrite Hfind in H3, H4, H5. simpl in *.
  split; [exact H1|]. split; [exact H2|]. split; [exact H3|].
  split; [exact H4|]. split; [exact H5|].
  intros l c ch Hin Hc Hch. apply reserves_clear_keeps. apply (H6 l c ch Hin Hc).
  exact Hch.
Qed.

(** The query [get_routes] builds holds the named layers that exist, in the
    order given, names without a layer being skipped; the overlay it applies
    to the map is made of the local channels and disabled nodes of those
    layers, in the same order. *)
Theorem get_routes_prepare_selects (st : askrene) (layers : list string) :
  let '(_, rq, localmods) := get_routes_prepare st layers in
  rq_layers rq = omap (find_layer st) layers /\
  lm_channels localmods = concat (map layer_local_channels (omap (find_layer st) layers)) /\
  lm_disabled localmods = concat (map layer_disabled_nodes (omap (find_layer st) layers)).
Proof.
  pose proof (get_routes_prepare_spec st layers) as H.
  destruct (get_routes_prepare st layers) as [[st' rq] lm].
  destruct H as (_ & _ & H3 & H4 & H5 & _). auto.
Qed.

Lemma capacity_fallback_le (g : gossmap) (chan : gossmap_chan) (max : Z) :
  capacity_fallback g chan max <= max.
Proof.
  unfold capacity_fallback. destruct (Z.eqb_spec max AMOUNT_MSAT_MAX) as [->|]; [|lia].
  destruct (gossmap_chan_get_capacity g chan) as [cap|]; [|lia].
  unfold amount_sat_to_msat, AMOUNT_MSAT_MAX.
  destruct (Z.ltb_spec u64_max (cap * 1000)); lia.
Qed.

(** The capacity cache never lets a channel escape the constraints of the
    layers a query uses: for a channel of the map and any layer of the
    query, the minimum [get_constraints] returns is at least the layer's MIN
    limit less the amount reserved on that direction, and its maximum is at
    most the layer's MAX limit (when that limit and the reservation are not
    negative). *)
Theorem get_routes_prepare_honours_constraints (st : askrene) (layers : list string)
    (chan : gossmap_chan) (dir : Z) :
  let '(_, rq, _) := get_routes_prepare st layers in
  gossmap_find_chan (rq_gossmap rq) (gc_scid chan) = Some chan ->
  let scidd := mk_scidd (gc_scid chan) dir in
  let res := match find_reserve (rq_reserved rq) scidd with
             | Some r => r_amount r
             | None => 0
             end in
  forall l, In l (rq_layers rq) ->
  (forall c, layer_find_constraint l scidd CONSTRAINT_MIN = Some c ->
     c_limit c - res <= fst (get_constraints rq chan dir)) /\
  (forall c, layer_find_constraint l scidd CONSTRAINT_MAX = Some c ->
     0 <= c_limit c -> 0 <= res ->
     snd (get_constraints rq chan dir) <= c_limit c).
Proof.
  pose proof (get_routes_prepare_spec st layers) as H.
  destruct (get_routes_prepare st layers) as [[st' rq] lm].
  destruct H as (_ & _ & _ & _ & _ & Hz).
  intros Hf scidd res l Hl.
  assert (Hslow : forall kind c, layer_find_constraint l scidd kind = Some c ->
            get_constraints rq chan dir =
            reserve_subtract (rq_reserved rq) scidd
              (fold_right Z.max 0 (limits (rq_layers rq) scidd CONSTRAINT_MIN),
               capacity_fallback (rq_gossmap rq) chan
                 (fold_right Z.min AMOUNT_MSAT_MAX
                    (limits (rq_layers rq) scidd CONSTRAINT_MAX)))).
  { intros kind c Hc. apply get_constraints_slow. apply fast_path_false.
    apply layer_find_constraint_some in Hc as (Hc & Hs & _).
    apply (Hz l c chan Hl Hc). rewrite Hs. exact Hf. }
  split.
  - intros c Hc. rewrite (Hslow _ c Hc), reserve_subtract_fst.
    pose proof (fold_right_max_ge 0 _ _ (limits_of _ _ _ l c Hl Hc)).
    unfold res. destruct (find_reserve (rq_reserved rq) scidd) as [r|]; [|lia].
    destruct (Z.ltb_spec (fold_right Z.max 0 (limits (rq_layers rq) scidd CONSTRAINT_MIN))
                         (r_amount r)); lia.
  - intros c Hc Hpos Hres. rewrite (Hslow _ c Hc), reserve_subtract_snd.
    pose proof (fold_right_min_le AMOUNT_MSAT_MAX _ _ (limits_of _ _ _ l c Hl Hc)).
    pose proof (capacity_fallback_le (rq_gossmap rq) chan
                  (fold_right Z.min AMOUNT_MSAT_MAX (limits (rq_layers rq) scidd CONSTRAINT_MAX))).
    unfold res in Hres. destruct (find_reserve (rq_reserved rq) scidd) as [r|]; [|lia].
    match goal with |- (if ?b then _ else _) <= _ => destruct b; lia end.
Qed.

Lemma get_routes_prepare_honours_constraints_witness :
  let '(_, rq, _) := get_routes_prepare askrene_L ["L"%string] in
  700000000 <= fst (get_constraints rq chan_01 0) /\
  snd (get_constraints rq chan_01 0) <= u64_max.
Proof.
  pose proof (get_routes_prepare_honours_constraints askrene_L ["L"%string] chan_01 0) as H.
  destruct (get_routes_prepare askrene_L ["L"%string]) as [[st' rq] lm] eqn:E.
  vm_compute in E. injection E as Hst Hrq Hlm. subst rq.
  destruct (H ltac:(vm_compute; reflexivity) layer_L ltac:(vm_compute; left; reflexivity))
    as [Hmin Hmax].
  split.
  - refine (Z.le_trans _ _ _ _ (Hmin (mk_constraint scidd_01_0 CONSTRAINT_MIN 1000 700000000)
                                     ltac:(vm_compute; reflexivity))).
    vm_compute. congruence.
  - exact (Hmax (mk_constraint scidd_01_0 CONSTRAINT_MAX 1000 u64_max)
                ltac:(vm_compute; reflexivity) ltac:(vm_compute; congruence)
                ltac:(vm_compute; congruence)).
Defined.

Lemma get_capacities_entries_witness :
  length (get_capacities graph_three) = 3%nat /\
  get_capacities graph_three !! gc_idx chan_01 = Some (chan_cap16 chan_01) /\
  get_capacities graph_three !! gc_idx chan_02_nocap = Some (chan_cap16 chan_02_nocap).
Proof.
  assert (Hidx : forall c, In c (gm_chans graph_three) -> (gc_idx c < gm_max_chan_idx graph_three)%nat).
  { intros c Hc. simpl in Hc. destruct Hc as [<-|[<-|[<-|[]]]]; vm_compute; lia. }
  destruct (get_capacities_entries graph_three
              ltac:(apply (bool_decide_unpack _); vm_compute; exact I) Hidx)
    as (Hlen & Hc & _).
  split; [exact Hlen|]. split; apply Hc; simpl; auto.
Defined.

(** ** [askrene-unreserve] *)





(** ** Reserving then unreserving a path *)






Lemma scidd_eqb_refl (s : short_channel_id_dir) : scidd_eqb s s = true.
Proof. apply scidd_eqb_spec. reflexivity. Qed.

Lemma scidd_eqb_false (a b : short_channel_id_dir) : scidd_eqb a b = false -> a <> b.
Proof. intros H ->. rewrite scidd_eqb_refl in H. discriminate. Qed.





















(** ** [askrene-disable-node] *)

Lemma disable_node_stored (st : askrene) (name : string) (node : node_id) :
  let '(rep, st2) := json_askrene_disable_node st name node in
  rep = ReplySuccess RJEmpty /\
  find_layer st2 name =
    Some (layer_add_disabled_node
            (match find_layer st name with Some l => l | None => mk_layer name [] [] [] end) node) /\
  (forall name', name' <> name -> find_layer st2 name' = find_layer st name') /\
  ask_reserved st2 = ask_reserved st /\ ask_gossmap st2 = ask_gossmap st.
Proof.
  pose proof (layer_find_or_create st name (fun l => layer_add_disabled_node l node)
                (fun l => eq_refl)) as H.
  cbv zeta in H. unfold json_askrene_disable_node.
  destruct (find_layer st name) as [l|];
    [|destruct (new_layer st name) as [st1 l]];
    destruct H as (Hl & H1 & H2 & H3 & H4); try subst l; split; auto.
Qed.


Lemma in_omap {A B : Type} (f : A -> option B) (xs : list A) (x : A) (y : B) :
  In x xs -> f x = Some y -> In y (omap f xs).
Proof.
  induction xs as [|x' xs IH]; intros Hin Hf; [contradiction|].
  cbn [omap list_omap]. destruct Hin as [->|Hin].
  - rewrite Hf. left. reflexivity.
  - destruct (f x'); [right|]; apply IH; assumption.
Qed.

(** A node disabled in a layer is disabled when the layer is used, not when
    the command runs: every [getroutes] naming the layer works on a map where
    each channel touching the node is disabled in both directions, including
    channels the gossip store received after the command. *)
Theorem disable_node_applies_at_use (st : askrene) (name : string) (node : node_id)
    (layers : list string) :
  In name layers ->
  let st2 := snd (json_askrene_disable_node st name node) in
  let '(st3, _, localmods) := get_routes_prepare st2 layers in
  forall c, In c (gm_chans (gossmap_apply_localmods (ask_gossmap st3) localmods)) ->
    gc_node1 c = node \/ gc_node2 c = node -> gc_enabled c = (false, false).
Proof.
  intros Hname st2. unfold st2. clear st2.
  pose proof (disable_node_stored st name node) as Hd.
  destruct (json_askrene_disable_node st name node) as [rep st2]. simpl.
  destruct Hd as (_ & Hf & _).
  pose proof (get_routes_prepare_spec st2 layers) as Hp.
  destruct (get_routes_prepare st2 layers) as [[st3 rq] lm].
  destruct Hp as (_ & _ & _ & _ & Hdis & _).
  assert (Hnode : node_in node (lm_disabled lm) = true).
  { unfold node_in. apply existsb_exists. exists node. split; [|apply Z.eqb_refl].
    rewrite Hdis. apply in_concat. eexists. split.
    - apply in_map. exact (in_omap _ _ _ _ Hname Hf).
    - simpl. apply in_or_app. right. left. reflexivity. }
  intros c Hc Hadj. unfold gossmap_apply_localmods in Hc. simpl in Hc.
  apply in_map_iff in Hc as (c0 & Hc0 & _). subst c.
  revert Hadj.
  destruct (node_in (gc_node1 c0) (lm_disabled lm) || node_in (gc_node2 c0) (lm_disabled lm))
    eqn:E; [reflexivity|].
  apply orb_false_iff in E as [E1 E2].
  intros [Ha|Ha]; subst node; congruence.
Qed.

Lemma disable_node_applies_at_use_witness :
  (let st2 := snd (json_askrene_disable_node askrene_later "L" node_B) in
   let '(st3, _, localmods) := get_routes_prepare st2 ["L"%string] in
   forall c, In c (gm_chans (gossmap_apply_localmods (ask_gossmap st3) localmods)) ->
     gc_node1 c = node_B \/ gc_node2 c = node_B -> gc_enabled c = (false, false)) /\
  (let st2 := snd (json_askrene_disable_node askrene_later "L" node_B) in
   let '(st3, _, localmods) := get_routes_prepare st2 ["L"%string] in
   In (mk_chan 1 0x02 node_B 3 None (false, false))
      (gm_chans (gossmap_apply_localmods (ask_gossmap st3) localmods))).
Proof.
  split.
  - exact (disable_node_applies_at_use askrene_later "L" node_B ["L"%string] (or_introl eq_refl)).
  - vm_compute. right. left. reflexivity.
Defined.

(** ** [askrene-age] *)

Lemma filter_length_split {A : Type} (p : A -> bool) (xs : list A) :
  (length (List.filter p xs) + length (List.filter (fun x => negb (p x)) xs))%nat = length xs.
Proof.
  induction xs as [|x xs IH]; simpl; [reflexivity|]. destruct (p x); simpl; lia.
Qed.

Lemma age_kept (cutoff : Z) (cs : list constraint) :
  List.filter (fun c => negb (c_timestamp c <? cutoff)) cs =
  List.filter (fun c => cutoff <=? c_timestamp c) cs.
Proof. apply filter_ext. intros c. rewrite Z.leb_antisym. reflexivity. Qed.

Lemma json_askrene_age_spec (st : askrene) (name : string) (cutoff : Z) :
  (find_layer st name = None ->
     json_askrene_age st name cutoff =
     (ReplyFail JSONRPC2_INVALID_PARAMS (MsgBadParam "layer" "Unknown layer"), st)) /\
  (forall l, find_layer st name = Some l ->
     let kept := List.filter (fun c => cutoff <=? c_timestamp c) (layer_constraints l) in
     let l' := mk_layer name (layer_local_channels l) kept (layer_disabled_nodes l) in
     let n := length (List.filter (fun c => c_timestamp c <? cutoff) (layer_constraints l)) in
     json_askrene_age st name cutoff = (ReplySuccess (RJAge name n), layer_store_update st l') /\
     (n + length kept)%nat = length (layer_constraints l) /\
     find_layer (layer_store_update st l') name = Some l' /\
     (forall name', name' <> name -> find_layer (layer_store_update st l') name' = find_layer st name') /\
     ask_reserved (layer_store_update st l') = ask_reserved st /\
     ask_gossmap (layer_store_update st l') = ask_gossmap st).
Proof.
  split.
  - intros Hf. unfold json_askrene_age, param_known_layer. rewrite Hf. reflexivity.
  - intros l Hf kept l' n. pose proof (find_layer_name _ _ _ Hf) as Hname.
    destruct (layer_store_update_props st name l' eq_refl (ex_intro _ l Hf)) as (H1 & H2 & H3 & H4).
    split; [|split; [|auto]].
    + unfold json_askrene_age, param_known_layer. rewrite Hf.
      unfold layer_trim_constraints. simpl. rewrite Hname, age_kept. reflexivity.
    + unfold n, kept. rewrite <- age_kept. apply filter_length_split.
Qed.

(** [askrene-age] on a name no layer has fails with JSONRPC2_INVALID_PARAMS
    ("Unknown layer") and creates nothing; on a layer it keeps exactly the
    constraints whose timestamp is at least the cutoff, in order, leaves the
    layer's local channels, disabled nodes and every other layer as they were,
    and reports the layer's name and the number of constraints it removed. *)
Theorem age_trims_layer (st : askrene) (name : string) (cutoff : Z) :
  (find_layer st name = None ->
     json_askrene_age st name cutoff =
     (ReplyFail JSONRPC2_INVALID_PARAMS (MsgBadParam "layer" "Unknown layer"), st)) /\
  (forall l, find_layer st name = Some l ->
     let kept := List.filter (fun c => cutoff <=? c_timestamp c) (layer_constraints l) in
     let l' := mk_layer name (layer_local_channels l) kept (layer_disabled_nodes l) in
     let n := length (List.filter (fun c => c_timestamp c <? cutoff) (layer_constraints l)) in
     json_askrene_age st name cutoff = (ReplySuccess (RJAge name n), layer_store_update st l') /\
     (n + length kept)%nat = length (layer_constraints l) /\
     find_layer (layer_store_update st l') name = Some l' /\
     (forall name', name' <> name -> find_layer (layer_store_update st l') name' = find_layer st name') /\
     ask_reserved (layer_store_update st l') = ask_reserved st /\
     ask_gossmap (layer_store_update st l') = ask_gossmap st).
Proof. exact (json_askrene_age_spec st name cutoff). Qed.

(** Both constraints of layer "L" date from 1000: a cutoff of 1001 removes
    them; an unknown layer is refused. *)
Lemma age_trims_layer_witness :
  json_askrene_age askrene_L "M" 1001 =
  (ReplyFail JSONRPC2_INVALID_PARAMS (MsgBadParam "layer" "Unknown layer"), askrene_L) /\
  fst (json_askrene_age askrene_L "L" 1001) = ReplySuccess (RJAge "L" 2) /\
  find_layer (snd (json_askrene_age askrene_L "L" 1001)) "L" = Some (mk_layer "L" [] [] []).
Proof.
  destruct (age_trims_layer askrene_L "M" 1001) as [Hunk _].
  destruct (age_trims_layer askrene_L "L" 1001) as [_ Hk].
  destruct (Hk layer_L eq_refl) as (Hrep & _ & Hfind & _).
  split; [exact (Hunk eq_refl)|]. rewrite Hrep. split; [reflexivity|exact Hfind].
Defined.

Lemma layer_update_constraint_matches (l : layer) (scidd : short_channel_id_dir)
    (kind : constraint_type) (ts lim : Z) :
  let cs := layer_constraints (fst (layer_update_constraint l scidd kind ts lim)) in
  In (mk_constraint scidd kind ts lim) cs /\
  forall c', In c' cs ->
    scidd_eqb (c_scidd c') scidd && constraint_type_eqb (c_type c') kind = true ->
    c' = mk_constraint scidd kind ts lim.
Proof.
  unfold layer_update_constraint. cbv zeta. simpl.
  destruct (existsb (fun c' => scidd_eqb (c_scidd c') scidd && constraint_type_eqb (c_type c') kind)
                    (layer_constraints l)) eqn:E.
  - apply existsb_exists in E as (x & Hx & Px). split.
    + apply in_map_iff. exists x. rewrite Px. auto.
    + intros c' Hc'. apply in_map_iff in Hc' as (y & <- & Hy).
      destruct (scidd_eqb (c_scidd y) scidd && constraint_type_eqb (c_type y) kind) eqn:Py;
        [reflexivity|]. rewrite Py. discriminate.
  - split.
    + apply in_or_app. right. left. reflexivity.
    + intros c' Hc' Pc'. apply in_app_or in Hc' as [Hc'|[<-|[]]]; [|reflexivity].
      assert (Hex : existsb (fun c' => scidd_eqb (c_scidd c') scidd &&
                                       constraint_type_eqb (c_type c') kind)
                            (layer_constraints l) = true)
        by (apply existsb_exists; exists c'; auto).
      congruence.
Qed.

(** The layer [askrene-inform-channel] leaves behind: the constraint update
    of the layer it found or created. *)
Lemma inform_channel_stored (now : Z) (st : askrene) (name : string) (scid dir : Z)
    (min max : option Z) :
  supplied min <> supplied max ->
  exists l0,
    find_layer (snd (json_askrene_inform_channel false now st name scid dir min max)) name =
    Some (fst (layer_update_constraint l0 (mk_scidd scid dir)
                 (if supplied min then CONSTRAINT_MIN else CONSTRAINT_MAX) now
                 (match min, max with Some m, _ => m | None, Some m => m | None, None => 0 end))).
Proof.
  intros H. unfold json_askrene_inform_channel.
  destruct min as [m|], max as [m'|]; simpl in H; try congruence;
    [ pose proof (layer_find_or_create st name
        (fun l => fst (layer_update_constraint l (mk_scidd scid dir) CONSTRAINT_MIN now m))
        (fun l => eq_refl)) as T
    | pose proof (layer_find_or_create st name
        (fun l => fst (layer_update_constraint l (mk_scidd scid dir) CONSTRAINT_MAX now m'))
        (fun l => eq_refl)) as T ];
    cbv beta zeta in T;
    cbn -[layer_update_constraint new_layer find_layer layer_store_update];
    (destruct (find_layer st name) as [l|];
     [| destruct (new_layer st name) as [st1 l]]);
    destruct T as (_ & T1 & _); exists l;
    match goal with
    | |- context [layer_update_constraint ?ly ?sd ?kd ?t ?lim] =>
        destruct (layer_update_constraint ly sd kd t lim) as [l' c'] eqn:Hu
    end; exact T1.
Qed.

Lemma find_filter_unique {A : Type} (P Q : A -> bool) (xs : list A) (c : A) :
  In c xs -> P c = true -> (forall x, In x xs -> P x = true -> x = c) ->
  List.find P (List.filter Q xs) = if Q c then Some c else None.
Proof.
  intros Hin Pc Huniq. destruct (List.find P (List.filter Q xs)) as [y|] eqn:Hf.
  - apply List.find_some in Hf as [Hy Py]. apply filter_In in Hy as [Hy Qy].
    rewrite (Huniq y Hy Py) in Qy |- *. rewrite Qy. reflexivity.
  - destruct (Q c) eqn:Qc; [|reflexivity].
    assert (Hc : In c (List.filter Q xs)) by (apply filter_In; auto).
    pose proof (List.find_none _ _ Hf c Hc). congruence.
Qed.

(** A constraint [askrene-inform-channel] records at time [now] is what a
    later [askrene-age] with cutoff [cutoff] keeps when [cutoff <= now], and
    is gone (counted among the removed) when [now < cutoff]. *)
Theorem inform_then_age (now cutoff : Z) (st : askrene) (name : string) (scid dir : Z)
    (min max : option Z) :
  supplied min <> supplied max ->
  let kind := if supplied min then CONSTRAINT_MIN else CONSTRAINT_MAX in
  let limit := match min, max with Some m, _ => m | None, Some m => m | None, None => 0 end in
  let scidd := mk_scidd scid dir in
  let st1 := snd (json_askrene_inform_channel false now st name scid dir min max) in
  exists n l,
    fst (json_askrene_age st1 name cutoff) = ReplySuccess (RJAge name n) /\
    find_layer (snd (json_askrene_age st1 name cutoff)) name = Some l /\
    layer_find_constraint l scidd kind =
      (if cutoff <=? now then Some (mk_constraint scidd kind now limit) else None) /\
    (now < cutoff -> (1 <= n)%nat).
Proof.
  intros H kind limit scidd st1.
  destruct (inform_channel_stored now st name scid dir min max H) as [l0 Hst].
  fold kind limit scidd st1 in Hst.
  destruct (layer_update_constraint_matches l0 scidd kind now limit) as [Hin Huniq].
  set (L1 := fst (layer_update_constraint l0 scidd kind now limit)) in *.
  destruct (json_askrene_age_spec st1 name cutoff) as [_ Hage].
  destruct (Hage L1 Hst) as (Hrep & _ & Hfind & _).
  eexists. eexists. rewrite Hrep. cbn [fst snd]. split; [reflexivity|]. split; [exact Hfind|]. split.
  - unfold layer_find_constraint. simpl.
    rewrite (find_filter_unique _ _ _ (mk_constraint scidd kind now limit) Hin); [reflexivity| |].
    + simpl. rewrite (proj2 (scidd_eqb_spec scidd scidd) eq_refl).
      rewrite (proj2 (constraint_type_eqb_spec kind kind) eq_refl). reflexivity.
    + exact Huniq.
  - intros Hlt.
    assert (Hr : In (mk_constraint scidd kind now limit)
                    (List.filter (fun c => c_timestamp c <? cutoff) (layer_constraints L1)))
      by (apply filter_In; split; [exact Hin|simpl; apply Z.ltb_lt; exact Hlt]).
    destruct (List.filter (fun c => c_timestamp c <? cutoff) (layer_constraints L1));
      [contradiction|simpl; lia].
Qed.

(** A MIN constraint recorded at 1000 on a fresh layer: a cutoff of 2000
    removes it, a cutoff of 500 keeps it. *)
Lemma inform_then_age_witness :
  (exists n l,
    fst (json_askrene_age (snd (json_askrene_inform_channel false 1000 askrene_empty "N" 0x01 0
                                  (Some 5) None)) "N" 2000) = ReplySuccess (RJAge "N" n) /\
    find_layer (snd (json_askrene_age (snd (json_askrene_inform_channel false 1000 askrene_empty
                  "N" 0x01 0 (Some 5) None)) "N" 2000)) "N" = Some l /\
    layer_find_constraint l scidd_01_0 CONSTRAINT_MIN = None /\ (1 <= n)%nat).
Proof.
  destruct (inform_then_age 1000 2000 askrene_empty "N" 0x01 0 (Some 5) None
              ltac:(simpl; discriminate)) as (n & l & H1 & H2 & H3 & H4).
  exists n, l. split; [exact H1|]. split; [exact H2|]. split.
  - exact H3.
  - apply H4. lia.
Defined.
